(** * ots-sign: signing and integrity protocol

    A shallow embedding of the protocol core of the ots-sign browser
    application: [js/crypto.js] (hex codec, signing message, key derivation,
    signature wrapper), the Merkle commitment of [js/state.js] and the bundle
    model of [js/bundle.js].

    Conventions.
    - A JavaScript string is a [string]: a sequence of code units.  The
      development covers the Latin-1 range (code units below 256), where
      [toLowerCase], [trim], [JSON.stringify] and [TextEncoder] have the closed
      forms given in module [JS].
    - A [Uint8Array] is a [list byte].
    - The browser and vendor primitives (SHA-256, PBKDF2, the Ed25519 functions
      of TweetNaCl, [JSON.parse]) are parameters of the sections that use them.
    - [Date] and [Math.random] readings are passed in as arguments. *)

From Stdlib Require Import String Ascii NArith ZArith Bool Arith List Lia.
From Stdlib.Strings Require Import Byte.
From Equations Require Import Equations.
Import ListNotations.

Local Open Scope string_scope.
Local Open Scope list_scope.
Local Open Scope nat_scope.

Abbreviation bytes := (list byte).

(* ===================================================================== *)
(** * Built-ins of the JavaScript platform *)
(* ===================================================================== *)

Module JS.

(** A value that is either a string or a byte array ([typeof x === 'string']
    decides between the two in the source). *)
Inductive StringOrBytes : Type :=
| Str (s : string)
| Bytes (b : bytes).

Definition code (c : ascii) : N := N_of_ascii c.

(** ** [String.prototype.toLowerCase] on Latin-1 *)

Definition lowerChar (c : ascii) : ascii :=
  let n := code c in
  if ((65 <=? n) && (n <=? 90))%N then ascii_of_N (n + 32)
  else if ((192 <=? n) && (n <=? 222) && negb (n =? 215))%N then ascii_of_N (n + 32)
  else c.

Fixpoint toLowerCase (s : string) : string :=
  match s with
  | EmptyString => EmptyString
  | String c r => String (lowerChar c) (toLowerCase r)
  end.

(** ** White space and [String.prototype.trim] *)

(** White space and line terminators below 256: TAB, LF, VT, FF, CR, SP, NBSP. *)
Definition isWhiteSpace (c : ascii) : bool :=
  let n := code c in
  (((9 <=? n) && (n <=? 13)) || (n =? 32) || (n =? 160))%N.

Fixpoint trimStart (s : string) : string :=
  match s with
  | EmptyString => EmptyString
  | String c r => if isWhiteSpace c then trimStart r else s
  end.

(** [trimEnd] keeps a character when it is not white space or when something
    that is kept follows it. *)
Fixpoint trimEnd (s : string) : string :=
  match s with
  | EmptyString => EmptyString
  | String c r =>
      match trimEnd r with
      | EmptyString => if isWhiteSpace c then EmptyString else String c EmptyString
      | r' => String c r'
      end
  end.

Definition trim (s : string) : string := trimEnd (trimStart s).

(** ** [parseInt(s, 16)] *)

Definition hexDigitValue (c : ascii) : option Z :=
  let n := code c in
  if ((48 <=? n) && (n <=? 57))%N then Some (Z.of_N (n - 48))
  else if ((97 <=? n) && (n <=? 102))%N then Some (Z.of_N (n - 87))
  else if ((65 <=? n) && (n <=? 70))%N then Some (Z.of_N (n - 55))
  else None.

(** The longest prefix of hexadecimal digits, accumulated most significant
    digit first; [None] (NaN) when there is no digit at all. *)
Fixpoint parseDigits (acc : option Z) (s : string) : option Z :=
  match s with
  | EmptyString => acc
  | String c r =>
      match hexDigitValue c with
      | Some d => parseDigits (Some (16 * match acc with Some a => a | None => 0 end + d)%Z) r
      | None => acc
      end
  end.

Definition stripHexPrefix (s : string) : string :=
  match s with
  | String "0" (String "x" r) => r
  | String "0" (String "X" r) => r
  | _ => s
  end.

(** [parseInt(s, 16)]: leading white space, an optional sign, an optional
    [0x] prefix, then the digits.  [None] stands for NaN. *)
Definition parseInt16 (s : string) : option Z :=
  let s1 := trimStart s in
  let '(sign, s2) :=
    match s1 with
    | String "-" r => ((-1)%Z, r)
    | String "+" r => (1%Z, r)
    | _ => (1%Z, s1)
    end in
  match parseDigits None (stripHexPrefix s2) with
  | Some v => Some (sign * v)%Z
  | None => None
  end.

(** Storing a number into a [Uint8Array] element: NaN becomes 0, an integer
    is taken modulo 256. *)
Definition toUint8 (v : option Z) : byte :=
  match v with
  | None => x00
  | Some z => match Byte.of_N (Z.to_N (z mod 256)) with Some b => b | None => x00 end
  end.

(** ** [Number.prototype.toString(16)] and [padStart(2, '0')] for a byte *)

Definition hexDigit (n : N) : ascii :=
  if (n <? 10)%N then ascii_of_N (48 + n) else ascii_of_N (87 + n).

Definition toString16 (n : N) : string :=
  if (n <? 16)%N then String (hexDigit n) EmptyString
  else String (hexDigit (n / 16)) (String (hexDigit (n mod 16)) EmptyString).

Definition padStart2 (s : string) : string :=
  match s with
  | EmptyString => "00"
  | String c EmptyString => String "0" s
  | _ => s
  end.

(** ** [TextEncoder.encode]: UTF-8 of a Latin-1 string *)

Definition byteOfN (n : N) : byte :=
  match Byte.of_N n with Some b => b | None => x00 end.

Definition utf8Char (c : ascii) : bytes :=
  let n := code c in
  if (n <? 128)%N then [byteOfN n]
  else [byteOfN (192 + n / 64); byteOfN (128 + n mod 64)].

Fixpoint TextEncoder_encode (s : string) : bytes :=
  match s with
  | EmptyString => []
  | String c r => utf8Char c ++ TextEncoder_encode r
  end.

(** ** [JSON.stringify] of strings and of flat records of strings *)

Definition dquote : ascii := ascii_of_N 34.
Definition backslash : ascii := ascii_of_N 92.

(** The escape of one character inside a JSON string literal. *)
Definition escapeChar (c : ascii) : string :=
  let n := code c in
  if (n =? 34)%N then String backslash (String dquote EmptyString)
  else if (n =? 92)%N then String backslash (String backslash EmptyString)
  else if (n =? 8)%N then String backslash "b"
  else if (n =? 9)%N then String backslash "t"
  else if (n =? 10)%N then String backslash "n"
  else if (n =? 12)%N then String backslash "f"
  else if (n =? 13)%N then String backslash "r"
  else if (n <? 32)%N then
    String backslash (String "u" (String "0" (String "0"
      (String (hexDigit (n / 16)) (String (hexDigit (n mod 16)) EmptyString)))))
  else String c EmptyString.

Fixpoint escapeString (s : string) : string :=
  match s with
  | EmptyString => EmptyString
  | String c r => escapeChar c ++ escapeString r
  end.

Definition quoteJSONString (s : string) : string :=
  String dquote (escapeString s ++ String dquote EmptyString).

(** The members of an object whose values are all strings, in insertion
    order, separated by commas. *)
Fixpoint stringifyMembers (members : list (string * string)) : string :=
  match members with
  | [] => EmptyString
  | [(k, v)] => quoteJSONString k ++ ":" ++ quoteJSONString v
  | (k, v) :: rest =>
      quoteJSONString k ++ ":" ++ quoteJSONString v ++ "," ++ stringifyMembers rest
  end.

Definition JSON_stringify_record (members : list (string * string)) : string :=
  "{" ++ stringifyMembers members ++ "}".

(** ** Values returned by [JSON.parse] *)

(** Numbers are JavaScript numbers; integers stand for them (only whether a
    number is zero matters below).  An object is the list of its members. *)
#[local] Unset Elimination Schemes.
Inductive json : Type :=
| JNull
| JBool (b : bool)
| JNum (z : Z)
| JStr (s : string)
| JArr (items : list json)
| JObj (members : list (string * json)).
#[local] Set Elimination Schemes.

Fixpoint lookupMember (key : string) (members : list (string * json)) : option json :=
  match members with
  | [] => None
  | (k, v) :: rest => if String.eqb k key then Some v else lookupMember key rest
  end.

(** [v.key] for a value [v] that is neither [null] nor [undefined] and a
    key that names no built-in property; [None] is [undefined]. *)
Definition getProp (v : json) (key : string) : option json :=
  match v with
  | JObj members => lookupMember key members
  | _ => None
  end.

(** ToBoolean. *)
Definition toBoolean (v : option json) : bool :=
  match v with
  | None => false
  | Some JNull => false
  | Some (JBool b) => b
  | Some (JNum z) => negb (Z.eqb z 0)
  | Some (JStr s) => negb (String.eqb s EmptyString)
  | Some (JArr _) => true
  | Some (JObj _) => true
  end.

(** ** Facts about the built-ins *)

Ltac each_char c := destruct c as [[] [] [] [] [] [] [] []].

Lemma lowerChar_idempotent (c : ascii) : lowerChar (lowerChar c) = lowerChar c.
Proof. each_char c; reflexivity. Qed.

Lemma isWhiteSpace_lowerChar (c : ascii) : isWhiteSpace (lowerChar c) = isWhiteSpace c.
Proof. each_char c; reflexivity. Qed.

Lemma toLowerCase_idempotent (s : string) : toLowerCase (toLowerCase s) = toLowerCase s.
Proof.
  induction s as [|c s IH]; simpl; [reflexivity|].
  now rewrite lowerChar_idempotent, IH.
Qed.

Lemma toLowerCase_trimStart (s : string) :
  toLowerCase (trimStart s) = trimStart (toLowerCase s).
Proof.
  induction s as [|c s IH]; simpl; [reflexivity|].
  rewrite isWhiteSpace_lowerChar. now destruct (isWhiteSpace c).
Qed.

Lemma toLowerCase_trimEnd (s : string) :
  toLowerCase (trimEnd s) = trimEnd (toLowerCase s).
Proof.
  induction s as [|c s IH]; simpl; [reflexivity|].
  rewrite <- IH, isWhiteSpace_lowerChar.
  destruct (trimEnd s); simpl; [now destruct (isWhiteSpace c) | reflexivity].
Qed.

Lemma toLowerCase_trim (s : string) : toLowerCase (trim s) = trim (toLowerCase s).
Proof. unfold trim. now rewrite toLowerCase_trimEnd, toLowerCase_trimStart. Qed.

Lemma trimEnd_idempotent (s : string) : trimEnd (trimEnd s) = trimEnd s.
Proof.
  induction s as [|c s IH]; simpl; [reflexivity|].
  destruct (trimEnd s) as [|c' t] eqn:E.
  - destruct (isWhiteSpace c) eqn:W; simpl; [reflexivity | now rewrite W].
  - change (trimEnd (String c (String c' t)))
      with (match trimEnd (String c' t) with
            | EmptyString => if isWhiteSpace c then EmptyString else String c EmptyString
            | r' => String c r'
            end).
    now rewrite IH.
Qed.

(** A string that does not begin with white space. *)
Definition startsClean (s : string) : Prop :=
  match s with
  | EmptyString => True
  | String c _ => isWhiteSpace c = false
  end.

Lemma trimStart_startsClean (s : string) : startsClean (trimStart s).
Proof.
  induction s as [|c s IH]; simpl; [exact I|].
  destruct (isWhiteSpace c) eqn:W; [assumption | exact W].
Qed.

Lemma trimStart_clean (s : string) : startsClean s -> trimStart s = s.
Proof. destruct s as [|c s]; simpl; [reflexivity | now intros ->]. Qed.

Lemma trimEnd_startsClean (s : string) : startsClean s -> startsClean (trimEnd s).
Proof.
  destruct s as [|c s]; simpl; [auto|]. intro W.
  destruct (trimEnd s); [rewrite W|]; exact W.
Qed.

Lemma trim_idempotent (s : string) : trim (trim s) = trim s.
Proof.
  unfold trim.
  rewrite (trimStart_clean (trimEnd (trimStart s))).
  - apply trimEnd_idempotent.
  - apply trimEnd_startsClean, trimStart_startsClean.
Qed.

(** ** Decoders, used to show that the encoders lose nothing *)

Fixpoint utf8Decode (bs : bytes) : string :=
  match bs with
  | [] => EmptyString
  | b :: r =>
      if (Byte.to_N b <? 128)%N then String (ascii_of_N (Byte.to_N b)) (utf8Decode r)
      else
        match r with
        | b2 :: r' =>
            String (ascii_of_N ((Byte.to_N b - 192) * 64 + (Byte.to_N b2 - 128)))
                   (utf8Decode r')
        | [] => EmptyString
        end
  end.

Lemma utf8Decode_char (c : ascii) (rest : bytes) :
  utf8Decode (utf8Char c ++ rest) = String c (utf8Decode rest).
Proof. each_char c; reflexivity. Qed.

Lemma utf8Decode_encode (s : string) : utf8Decode (TextEncoder_encode s) = s.
Proof.
  induction s as [|c s IH]; simpl; [reflexivity|].
  now rewrite utf8Decode_char, IH.
Qed.

Lemma TextEncoder_encode_inj (s t : string) :
  TextEncoder_encode s = TextEncoder_encode t -> s = t.
Proof.
  intro H. rewrite <- (utf8Decode_encode s), <- (utf8Decode_encode t). now rewrite H.
Qed.

Definition consParsed (c : ascii) (r : option (string * string)) : option (string * string) :=
  match r with
  | Some (s, t) => Some (String c s, t)
  | None => None
  end.

Definition hexPair (h l : ascii) : ascii :=
  match hexDigitValue h, hexDigitValue l with
  | Some a, Some b => ascii_of_N (Z.to_N (16 * a + b))
  | _, _ => zero
  end.

(** Reads the body of a JSON string literal up to its closing quote and
    returns the string it denotes with the text after the quote. *)
Fixpoint readJSONString (s : string) : option (string * string) :=
  match s with
  | EmptyString => None
  | String c r =>
      if (code c =? 34)%N then Some (EmptyString, r)
      else if (code c =? 92)%N then
        match r with
        | String e r1 =>
            if (code e =? 117)%N then
              match r1 with
              | String _ (String _ (String h (String l r2))) =>
                  consParsed (hexPair h l) (readJSONString r2)
              | _ => None
              end
            else
              consParsed
                (if (code e =? 98)%N then ascii_of_N 8
                 else if (code e =? 116)%N then ascii_of_N 9
                 else if (code e =? 110)%N then ascii_of_N 10
                 else if (code e =? 102)%N then ascii_of_N 12
                 else if (code e =? 114)%N then ascii_of_N 13
                 else e)
                (readJSONString r1)
        | EmptyString => None
        end
      else consParsed c (readJSONString r)
  end.

Lemma readJSONString_char (c : ascii) (rest : string) :
  readJSONString (escapeChar c ++ rest) = consParsed c (readJSONString rest).
Proof. each_char c; reflexivity. Qed.

Lemma string_app_assoc (s1 s2 s3 : string) :
  ((s1 ++ s2) ++ s3)%string = (s1 ++ (s2 ++ s3))%string.
Proof. induction s1 as [|c s1 IH]; simpl; congruence. Qed.

Lemma readJSONString_escape (s rest : string) :
  readJSONString (escapeString s ++ String dquote rest) = Some (s, rest).
Proof.
  induction s as [|c s IH]; simpl; [reflexivity|].
  now rewrite string_app_assoc, readJSONString_char, IH.
Qed.

(** An escaped string ends where its closing quote stands: two equal texts
    that begin with escaped strings and their closing quotes begin with the
    same string. *)
Lemma escapeString_inj (s1 s2 r1 r2 : string) :
  ((escapeString s1 ++ String dquote EmptyString) ++ r1)%string
  = ((escapeString s2 ++ String dquote EmptyString) ++ r2)%string ->
  s1 = s2 /\ r1 = r2.
Proof.
  rewrite !string_app_assoc. cbn [append]. intro H.
  apply (f_equal readJSONString) in H.
  rewrite !readJSONString_escape in H. now injection H.
Qed.

Lemma quoteJSONString_inj (s1 s2 r1 r2 : string) :
  (quoteJSONString s1 ++ r1)%string = (quoteJSONString s2 ++ r2)%string ->
  s1 = s2 /\ r1 = r2.
Proof.
  unfold quoteJSONString. cbn [append]. intro H. injection H as H.
  now apply escapeString_inj.
Qed.

(** Only the digits [0-9] and [a-f]. *)
Fixpoint isLowerHex (s : string) : bool :=
  match s with
  | EmptyString => true
  | String c r =>
      (((48 <=? code c) && (code c <=? 57)) || ((97 <=? code c) && (code c <=? 102)))%N
      && isLowerHex r
  end.

End JS.

(* ===================================================================== *)
(** * js/crypto.js *)
(* ===================================================================== *)

Module Crypto.
Import JS.

Definition PBKDF2_ITERATIONS : N := 100000.
Definition SALT_PREFIX : string := "ots-sign-v1:".

Record KeyPair : Type := mkKeyPair {
  publicKey : bytes;
  secretKey : bytes
}.

(** [Array.from(bytes).map(b => b.toString(16).padStart(2, '0')).join('')] *)
Definition bytesToHex (bs : bytes) : string :=
  String.concat EmptyString (map (fun b => padStart2 (toString16 (Byte.to_N b))) bs).

(** One array element per two characters ([hex.length / 2] elements, a
    trailing odd character is not read); element [i] is
    [parseInt(hex.substr(i * 2, 2), 16)] stored into the [Uint8Array]. *)
Fixpoint hexToBytes (hex : string) : bytes :=
  match hex with
  | String a (String b rest) =>
      toUint8 (parseInt16 (String a (String b EmptyString))) :: hexToBytes rest
  | _ => []
  end.

Definition formatPublicKey (pk : bytes) : string := "ed25519:" ++ bytesToHex pk.

(** [parsePublicKey] throws on a string that does not start with the scheme
    prefix; [inl] carries the message of the thrown error. *)
Definition parsePublicKey (formatted : string) : string + bytes :=
  if String.prefix "ed25519:" formatted
  then inr (hexToBytes (substring 8 (String.length formatted - 8) formatted))
  else inl "Invalid public key format".

(** The normalisation applied to an email address wherever it is used. *)
Definition normalizeEmail (email : string) : string := trim (toLowerCase email).

(** The object literal passed to [JSON.stringify] by [createSigningMessage]. *)
Definition signingRecord (documentHash : bytes) (email timestamp : string)
  : list (string * string) :=
  [ ("documentHash", bytesToHex documentHash);
    ("email", trim (toLowerCase email));
    ("timestamp", timestamp);
    ("version", "ots-sign-v1") ].

Definition createSigningMessage (documentHash : bytes) (email timestamp : string) : bytes :=
  let message := JSON_stringify_record (signingRecord documentHash email timestamp) in
  TextEncoder_encode message.

Section Primitives.

(** WebCrypto [deriveBits] with PBKDF2 over SHA-256: password bytes, salt,
    iteration count and number of bits. *)
Variable pbkdf2_sha256 : bytes -> bytes -> N -> N -> bytes.
(** TweetNaCl: [nacl.sign.keyPair.fromSeed], [nacl.sign], [nacl.sign.open].
    [nacl.sign] throws on a secret key of the wrong size and [nacl.sign.open]
    on a public key of the wrong size: [inl] carries the message of the
    thrown error; [inr None] is a [null] result. *)
Variable nacl_sign_keyPair_fromSeed : bytes -> KeyPair.
Variable nacl_sign : bytes -> bytes -> string + bytes.
Variable nacl_sign_open : bytes -> bytes -> string + option bytes.

Definition nacl_sign_signatureLength : nat := 64.

Definition deriveKeypair (email password : string) : KeyPair :=
  let normalizedEmail := trim (toLowerCase email) in
  let salt := TextEncoder_encode (SALT_PREFIX ++ normalizedEmail) in
  let passwordBytes := TextEncoder_encode password in
  let seed := pbkdf2_sha256 passwordBytes salt PBKDF2_ITERATIONS 256 in
  let keypair := nacl_sign_keyPair_fromSeed seed in
  {| publicKey := publicKey keypair; secretKey := secretKey keypair |}.

(** [sign] throws what [nacl.sign] throws. *)
Definition sign (message secretKey : bytes) : string + bytes :=
  match nacl_sign message secretKey with
  | inl e => inl e
  | inr signedMessage => inr (firstn nacl_sign_signatureLength signedMessage)
  end.

(** [verify] throws what [nacl.sign.open] throws. *)
Definition verify (message signature publicKey : bytes) : string + bool :=
  let signedMessage := signature ++ message in
  match nacl_sign_open signedMessage publicKey with
  | inl e => inl e
  | inr result => inr (match result with Some _ => true | None => false end)
  end.

(** The wrapper around TweetNaCl: when [nacl.sign] returns a 64-byte
    signature followed by the message, [sign] returns the signature and
    [verify] hands [nacl.sign.open] the very array [nacl.sign] returned. *)
Lemma verify_sign_reassembles (message secretKey publicKey signature : bytes) :
  nacl_sign message secretKey = inr (signature ++ message) ->
  length signature = nacl_sign_signatureLength ->
  sign message secretKey = inr signature /\
  verify message signature publicKey
  = match nacl_sign_open (signature ++ message) publicKey with
    | inl e => inl e
    | inr result => inr (match result with Some _ => true | None => false end)
    end.
Proof.
  intros Hsigned Hlen. split; [|reflexivity]. unfold sign.
  rewrite Hsigned, firstn_app, <- Hlen, firstn_all, Nat.sub_diag.
  now rewrite firstn_0, app_nil_r.
Qed.

(** C5.  [deriveKeypair] gives the same key pair for an email and for its
    normalised form (lower-cased, trimmed), hence for any two spellings of
    an email with the same normalised form; being a function of its two
    arguments, it returns the same bytes on every call. *)
Theorem deriveKeypair_normalized (email password : string) :
  deriveKeypair email password = deriveKeypair (trim (toLowerCase email)) password /\
  forall email' : string,
    trim (toLowerCase email') = trim (toLowerCase email) ->
    deriveKeypair email' password = deriveKeypair email password.
Proof.
  split.
  - unfold deriveKeypair.
    now rewrite toLowerCase_trim, toLowerCase_idempotent, trim_idempotent.
  - intros email' H. unfold deriveKeypair. now rewrite H.
Qed.

End Primitives.

(** Stand-ins for the key-stretching and key-expansion primitives, to run
    [deriveKeypair] on examples. *)
Definition samplePbkdf2 (password salt : bytes) (iterations bits : N) : bytes :=
  firstn (N.to_nat (bits / 8)) (password ++ salt ++ repeat x00 (N.to_nat (bits / 8))).

Definition sampleFromSeed (seed : bytes) : KeyPair :=
  {| publicKey := rev seed; secretKey := seed ++ rev seed |}.

Lemma deriveKeypair_normalized_witness :
  deriveKeypair samplePbkdf2 sampleFromSeed "  Ann@Example.ORG " "correct horse"
  = deriveKeypair samplePbkdf2 sampleFromSeed "ann@example.org" "correct horse".
Proof.
  apply (proj2 (deriveKeypair_normalized samplePbkdf2 sampleFromSeed
                  "ann@example.org" "correct horse")).
  reflexivity.
Defined.

(** ** The hex codec *)

Lemma append_empty_r (s : string) : (s ++ EmptyString)%string = s.
Proof. induction s as [|c s IH]; simpl; congruence. Qed.

Lemma bytesToHex_cons (b : byte) (bs : bytes) :
  bytesToHex (b :: bs) = (padStart2 (toString16 (Byte.to_N b)) ++ bytesToHex bs)%string.
Proof.
  unfold bytesToHex. destruct bs as [|b' bs]; simpl.
  - now rewrite append_empty_r.
  - reflexivity.
Qed.

(** Decoding undoes the two characters written for one byte. *)
Lemma hexToBytes_byte (b : byte) (rest : string) :
  hexToBytes (padStart2 (toString16 (Byte.to_N b)) ++ rest) = b :: hexToBytes rest.
Proof. destruct b; reflexivity. Qed.

Lemma hexToBytes_bytesToHex (bs : bytes) : hexToBytes (bytesToHex bs) = bs.
Proof.
  induction bs as [|b bs IH]; [reflexivity|].
  rewrite bytesToHex_cons, hexToBytes_byte. now rewrite IH.
Qed.

Lemma bytesToHex_inj (a b : bytes) : bytesToHex a = bytesToHex b -> a = b.
Proof.
  intro H. rewrite <- (hexToBytes_bytesToHex a), <- (hexToBytes_bytesToHex b).
  now rewrite H.
Qed.

Lemma bytesToHex_eqb (a b : bytes) :
  String.eqb (bytesToHex a) (bytesToHex b) = true <-> a = b.
Proof.
  rewrite String.eqb_eq. split; [apply bytesToHex_inj | now intros ->].
Qed.

(** The order on hex strings used by [hashNodes] is a strict total order on
    byte arrays: of two distinct arrays exactly one is below the other. *)
Lemma hex_ltb_cases (a b : bytes) :
  (String.ltb (bytesToHex a) (bytesToHex b) = true /\
   String.ltb (bytesToHex b) (bytesToHex a) = false) \/
  (String.ltb (bytesToHex a) (bytesToHex b) = false /\
   String.ltb (bytesToHex b) (bytesToHex a) = true) \/
  (String.ltb (bytesToHex a) (bytesToHex b) = false /\
   String.ltb (bytesToHex b) (bytesToHex a) = false /\ a = b).
Proof.
  unfold String.ltb.
  pose proof (String.compare_antisym (bytesToHex a) (bytesToHex b)) as Hanti.
  destruct (String.compare (bytesToHex a) (bytesToHex b)) eqn:E1;
    destruct (String.compare (bytesToHex b) (bytesToHex a)) eqn:E2;
    simpl in Hanti; try discriminate; auto.
  right; right. repeat split.
  apply bytesToHex_inj. now apply String.compare_eq_iff.
Qed.

Lemma isLowerHex_byte (b : byte) (rest : string) :
  isLowerHex (padStart2 (toString16 (Byte.to_N b)) ++ rest) = isLowerHex rest.
Proof. destruct b; reflexivity. Qed.

Lemma bytesToHex_lower (bs : bytes) : isLowerHex (bytesToHex bs) = true.
Proof.
  induction bs as [|b bs IH]; [reflexivity|].
  now rewrite bytesToHex_cons, isLowerHex_byte.
Qed.

(** ** The signing message *)

Lemma normalizeEmail_idempotent (email : string) :
  normalizeEmail (normalizeEmail email) = normalizeEmail email.
Proof.
  unfold normalizeEmail.
  now rewrite toLowerCase_trim, toLowerCase_idempotent, trim_idempotent.
Qed.

(** The wire format of the signing message: four members in fixed order,
    each value a JSON string literal, no white space. *)
Definition jsonKey (name : string) : string :=
  String dquote (name ++ String dquote ":").

Definition signingMessageText (hex email timestamp : string) : string :=
  ("{" ++ jsonKey "documentHash" ++ quoteJSONString hex ++
   "," ++ jsonKey "email" ++ quoteJSONString email ++
   "," ++ jsonKey "timestamp" ++ quoteJSONString timestamp ++
   "," ++ jsonKey "version" ++ quoteJSONString "ots-sign-v1" ++ "}")%string.

Lemma createSigningMessage_text (documentHash : bytes) (email timestamp : string) :
  createSigningMessage documentHash email timestamp
  = TextEncoder_encode
      (signingMessageText (bytesToHex documentHash) (normalizeEmail email) timestamp).
Proof.
  unfold createSigningMessage, signingRecord, JSON_stringify_record, stringifyMembers,
    signingMessageText, jsonKey, normalizeEmail, quoteJSONString.
  f_equal. cbn [append escapeString escapeChar].
  repeat (rewrite !string_app_assoc; cbn [append]). reflexivity.
Qed.

Lemma signingMessageText_inj (h1 e1 t1 h2 e2 t2 : string) :
  signingMessageText h1 e1 t1 = signingMessageText h2 e2 t2 ->
  h1 = h2 /\ e1 = e2 /\ t1 = t2.
Proof.
  unfold signingMessageText, jsonKey, quoteJSONString. cbn [append]. intro H.
  repeat match type of H with String _ _ = String _ _ => injection H as H end.
  apply escapeString_inj in H. destruct H as [-> H].
  repeat match type of H with String _ _ = String _ _ => injection H as H end.
  apply escapeString_inj in H. destruct H as [-> H].
  repeat match type of H with String _ _ = String _ _ => injection H as H end.
  apply escapeString_inj in H. destruct H as [-> _]. auto.
Qed.

(** C4.  [createSigningMessage] is the UTF-8 encoding of the record with
    members [documentHash] (lower-case hex), [email] (lower-cased and
    trimmed), [timestamp] (as supplied) and [version] (the literal
    [ots-sign-v1]) in that order, and two calls that return the same bytes
    were given the same document hash, the same normalised email and the
    same timestamp. *)
Theorem createSigningMessage_canonical (documentHash : bytes) (email timestamp : string) :
  createSigningMessage documentHash email timestamp
  = TextEncoder_encode
      (signingMessageText (bytesToHex documentHash) (trim (toLowerCase email)) timestamp) /\
  isLowerHex (bytesToHex documentHash) = true /\
  forall (documentHash' : bytes) (email' timestamp' : string),
    createSigningMessage documentHash email timestamp
    = createSigningMessage documentHash' email' timestamp' ->
    documentHash = documentHash' /\
    trim (toLowerCase email) = trim (toLowerCase email') /\
    timestamp = timestamp'.
Proof.
  split; [apply createSigningMessage_text|]. split; [apply bytesToHex_lower|].
  intros documentHash' email' timestamp' H.
  rewrite !createSigningMessage_text in H.
  apply TextEncoder_encode_inj, signingMessageText_inj in H.
  destruct H as (Hh & He & Ht). auto using bytesToHex_inj.
Qed.

Lemma createSigningMessage_canonical_witness :
  [x01; xff] = [x01; xff] /\
  trim (toLowerCase " Ann@Example.ORG") = trim (toLowerCase "ann@example.org  ") /\
  "2024-05-01T10:00:00.000Z"%string = "2024-05-01T10:00:00.000Z"%string.
Proof.
  apply (proj2 (proj2 (createSigningMessage_canonical
                         [x01; xff] " Ann@Example.ORG" "2024-05-01T10:00:00.000Z"))).
  reflexivity.
Defined.

(** ** [checkPasswordStrength] *)

Record PasswordStrength : Type := mkStrength {
  score : nat;
  maxScore : nat;
  isStrong : bool;
  feedback : list string
}.

(** [regex.test(s)] for a character class: some character is in the class. *)
Fixpoint anyChar (p : ascii -> bool) (s : string) : bool :=
  match s with
  | EmptyString => false
  | String c r => p c || anyChar p r
  end.

Definition isLowerLetter (c : ascii) : bool := ((97 <=? code c) && (code c <=? 122))%N.
Definition isUpperLetter (c : ascii) : bool := ((65 <=? code c) && (code c <=? 90))%N.
Definition isDigit (c : ascii) : bool := ((48 <=? code c) && (code c <=? 57))%N.

(** The five tests of [checkPasswordStrength], in order, on the pair of
    [result.score] and [result.feedback]. *)
Definition checkPasswordStrength (password : string) : PasswordStrength :=
  let r0 : nat * list string := (0, []) in
  let r1 :=
    if String.length password <? 8
    then (fst r0, snd r0 ++ ["at least 8 characters"%string])
    else (S (fst r0), snd r0) in
  let r2 := if 12 <=? String.length password then (S (fst r1), snd r1) else r1 in
  let r3 :=
    if anyChar isLowerLetter password && anyChar isUpperLetter password
    then (S (fst r2), snd r2)
    else (fst r2, snd r2 ++ ["mix of upper and lowercase"%string]) in
  let r4 :=
    if anyChar isDigit password
    then (S (fst r3), snd r3)
    else (fst r3, snd r3 ++ ["at least one number"%string]) in
  let r5 :=
    if anyChar (fun c => negb (isLowerLetter c || isUpperLetter c || isDigit c)) password
    then (S (fst r4), snd r4)
    else r4 in
  {| score := fst r5; maxScore := 5; isStrong := 3 <=? fst r5; feedback := snd r5 |}.

(** ** Further properties of the codec and the wrappers *)

Lemma string_length_append (s t : string) :
  String.length (s ++ t) = String.length s + String.length t.
Proof. induction s as [|c s IH]; simpl; congruence. Qed.

Lemma hexByte_length (b : byte) :
  String.length (padStart2 (toString16 (Byte.to_N b))) = 2.
Proof. destruct b; reflexivity. Qed.

(** X1.  Decoding the hex text of a byte array gives the array back; the
    text has two characters per byte, so distinct arrays have distinct
    texts. *)
Theorem bytesToHex_roundtrip (bs : bytes) :
  hexToBytes (bytesToHex bs) = bs /\
  String.length (bytesToHex bs) = 2 * length bs /\
  forall bs' : bytes, bytesToHex bs = bytesToHex bs' -> bs = bs'.
Proof.
  split; [apply hexToBytes_bytesToHex|]. split.
  - induction bs as [|b bs IH]; [reflexivity|].
    rewrite bytesToHex_cons, string_length_append, hexByte_length, IH. simpl. lia.
  - intros bs' H. now apply bytesToHex_inj.
Qed.

Lemma bytesToHex_roundtrip_witness : [x0a; xff] = [x0a; xff].
Proof.
  apply (proj2 (proj2 (bytesToHex_roundtrip [x0a; xff]))). reflexivity.
Defined.

Lemma half_step (n : nat) : S (S n) / 2 = S (n / 2).
Proof.
  replace (S (S n)) with (n + 1 * 2) by lia. rewrite Nat.div_add by lia. lia.
Qed.

Lemma hexToBytes_length (hex : string) :
  length (hexToBytes hex) = String.length hex / 2.
Proof.
  assert (H : forall s,
             length (hexToBytes s) = String.length s / 2 /\
             forall c, length (hexToBytes (String c s)) = String.length (String c s) / 2).
  { induction s as [|a s [IH1 IH2]]; split; try reflexivity.
    - exact (IH2 a).
    - intro c. cbn [hexToBytes length String.length]. rewrite half_step. now f_equal. }
  apply H.
Qed.

(** X2.  [hexToBytes] never fails: it returns one byte per two characters
    and does not read a trailing odd character, and a group that starts
    with a character that is neither a hex digit, white space nor a sign is
    stored as the byte 0. *)
Theorem hexToBytes_lenient (hex : string) :
  length (hexToBytes hex) = String.length hex / 2 /\
  (forall c : ascii,
      Nat.even (String.length hex) = true ->
      hexToBytes (hex ++ String c EmptyString) = hexToBytes hex) /\
  (forall a b : ascii,
      hexDigitValue a = None -> isWhiteSpace a = false ->
      a <> "-"%char -> a <> "+"%char ->
      hexToBytes (String a (String b hex)) = x00 :: hexToBytes hex).
Proof.
  split; [apply hexToBytes_length|]. split.
  - intro c.
    assert (H : forall s,
               (Nat.even (String.length s) = true ->
                hexToBytes (s ++ String c EmptyString) = hexToBytes s) /\
               forall d, Nat.even (String.length (String d s)) = true ->
                         hexToBytes (String d s ++ String c EmptyString)
                         = hexToBytes (String d s)).
    { induction s as [|a s [IH1 IH2]]; split.
      - reflexivity.
      - intros d H. discriminate H.
      - exact (IH2 a).
      - intros d H. cbn [append hexToBytes]. f_equal. apply IH1. exact H. }
    apply H.
  - intros a b Hd Hw Hm Hp. cbn [hexToBytes]. f_equal.
    revert Hd Hw Hm Hp.
    each_char a; intros Hd Hw Hm Hp;
      try discriminate Hd; try discriminate Hw;
      try (exfalso; apply Hm; reflexivity); try (exfalso; apply Hp; reflexivity);
      reflexivity.
Qed.

Lemma hexToBytes_lenient_witness :
  hexToBytes "zz0a" = x00 :: hexToBytes "0a".
Proof.
  apply (proj2 (proj2 (hexToBytes_lenient "0a")) "z"%char "z"%char);
    [reflexivity | reflexivity | discriminate | discriminate].
Defined.

Lemma substring_all (s : string) : substring 0 (String.length s) s = s.
Proof. induction s as [|c s IH]; simpl; congruence. Qed.

Lemma prefix_append (p s : string) : String.prefix p (p ++ s) = true.
Proof.
  induction p as [|a p IH]; simpl.
  - now destruct s.
  - destruct (ascii_dec a a); [exact IH | congruence].
Qed.

(** X3.  [parsePublicKey] undoes [formatPublicKey], and it throws exactly
    on the strings that do not start with the scheme prefix: whatever
    follows the prefix is decoded without any check. *)
Theorem parsePublicKey_formatPublicKey (pk : bytes) :
  parsePublicKey (formatPublicKey pk) = inr pk /\
  forall formatted : string,
    ((exists message, parsePublicKey formatted = inl message)
     <-> String.prefix "ed25519:" formatted = false) /\
    (String.prefix "ed25519:" formatted = true ->
     parsePublicKey formatted
     = inr (hexToBytes (substring 8 (String.length formatted - 8) formatted))).
Proof.
  split.
  - unfold parsePublicKey, formatPublicKey.
    rewrite prefix_append. f_equal.
    rewrite string_length_append.
    replace (String.length "ed25519:" + String.length (bytesToHex pk) - 8)
      with (String.length (bytesToHex pk)) by (simpl; lia).
    cbn [append substring]. rewrite substring_all. apply hexToBytes_bytesToHex.
  - intro formatted. unfold parsePublicKey.
    destruct (String.prefix "ed25519:" formatted); split.
    + split; [intros [message H]; discriminate H | discriminate].
    + reflexivity.
    + split; eauto.
    + discriminate.
Qed.

Lemma parsePublicKey_formatPublicKey_witness :
  parsePublicKey "ed25519:0aff"
  = inr (hexToBytes (substring 8 (String.length "ed25519:0aff" - 8) "ed25519:0aff")).
Proof.
  apply (proj2 (proj2 (parsePublicKey_formatPublicKey []) "ed25519:0aff")).
  reflexivity.
Defined.

(** The value of a call that uses the value of another: a throw of the
    first ends both. *)
Definition andThen {A B : Type} (r : string + A) (k : A -> string + B) : string + B :=
  match r with
  | inl e => inl e
  | inr a => k a
  end.

(** X4.  When [nacl.sign] returns a 64-byte signature followed by the
    message, [sign] returns that signature, and [verify] on it accepts
    exactly when [nacl.sign.open] accepts what [nacl.sign] returned, and
    throws exactly what [nacl.sign.open] throws on it. *)
Theorem sign_verify_wrapper
  (nacl_sign : bytes -> bytes -> string + bytes)
  (nacl_sign_open : bytes -> bytes -> string + option bytes)
  (message secretKey publicKey signature : bytes) :
  nacl_sign message secretKey = inr (signature ++ message) ->
  length signature = 64 ->
  sign nacl_sign message secretKey = inr signature /\
  (andThen (sign nacl_sign message secretKey)
           (fun signature => verify nacl_sign_open message signature publicKey)
   = inr true
   <-> exists opened,
         andThen (nacl_sign message secretKey)
                 (fun signedMessage => nacl_sign_open signedMessage publicKey)
         = inr (Some opened)) /\
  (forall e,
      andThen (sign nacl_sign message secretKey)
              (fun signature => verify nacl_sign_open message signature publicKey)
      = inl e
      <-> andThen (nacl_sign message secretKey)
                  (fun signedMessage => nacl_sign_open signedMessage publicKey)
          = inl e).
Proof.
  intros Hsigned Hlen.
  destruct (verify_sign_reassembles nacl_sign nacl_sign_open message secretKey
              publicKey signature Hsigned Hlen) as [Hsig Hverify].
  split; [exact Hsig|].
  rewrite Hsig, Hsigned. cbn [andThen]. rewrite Hverify.
  destruct (nacl_sign_open (signature ++ message) publicKey) as [e0 | [opened|]].
  - split; [|intro e; split; intro H; injection H as ->; reflexivity].
    split; [intro H | intros [opened H]]; discriminate H.
  - split; [split; [eauto | reflexivity]|].
    intro e. split; intro H; discriminate H.
  - split; [split; [intro H | intros [opened H]]; discriminate H|].
    intro e. split; intro H; discriminate H.
Qed.

(** Stand-ins for [nacl.sign] and [nacl.sign.open], to run the wrapper on
    an example: the signature is the zero-padded secret key, and every
    signed message opens under a key of 32 bytes. *)
Definition sampleNaclSign (message secretKey : bytes) : string + bytes :=
  inr (firstn 64 (secretKey ++ repeat x00 64) ++ message).

Definition sampleNaclOpen (signedMessage publicKey : bytes) : string + option bytes :=
  if length publicKey =? 32
  then inr (Some (skipn 64 signedMessage))
  else inl "bad public key size".

Lemma sign_verify_wrapper_witness :
  sign sampleNaclSign [x68; x69] [x01] = inr (firstn 64 ([x01] ++ repeat x00 64)) /\
  (andThen (sign sampleNaclSign [x68; x69] [x01])
           (fun signature => verify sampleNaclOpen [x68; x69] signature (repeat x02 32))
   = inr true
   <-> exists opened,
         andThen (sampleNaclSign [x68; x69] [x01])
                 (fun signedMessage => sampleNaclOpen signedMessage (repeat x02 32))
         = inr (Some opened)) /\
  (forall e,
      andThen (sign sampleNaclSign [x68; x69] [x01])
              (fun signature => verify sampleNaclOpen [x68; x69] signature (repeat x02 32))
      = inl e
      <-> andThen (sampleNaclSign [x68; x69] [x01])
                  (fun signedMessage => sampleNaclOpen signedMessage (repeat x02 32))
          = inl e).
Proof.
  apply (sign_verify_wrapper sampleNaclSign sampleNaclOpen [x68; x69] [x01]
           (repeat x02 32) (firstn 64 ([x01] ++ repeat x00 64))); reflexivity.
Defined.

Definition b2n (b : bool) : nat := if b then 1 else 0.

Ltac split_b2n :=
  repeat match goal with
         | |- context [b2n ?b] =>
             lazymatch b with
             | true => fail
             | false => fail
             | _ => destruct b
             end
         end.

Lemma checkPasswordStrength_unfold (password : string) :
  let short := String.length password <? 8 in
  let mixed := anyChar isLowerLetter password && anyChar isUpperLetter password in
  let digit := anyChar isDigit password in
  score (checkPasswordStrength password)
  = b2n (negb short) + b2n (12 <=? String.length password) + b2n mixed + b2n digit
    + b2n (anyChar (fun c => negb (isLowerLetter c || isUpperLetter c || isDigit c))
             password) /\
  feedback (checkPasswordStrength password)
  = (if short then ["at least 8 characters"%string] else [])
    ++ (if mixed then [] else ["mix of upper and lowercase"%string])
    ++ (if digit then [] else ["at least one number"%string]).
Proof.
  unfold checkPasswordStrength. cbv zeta.
  generalize (String.length password <? 8), (12 <=? String.length password),
    (anyChar isLowerLetter password && anyChar isUpperLetter password),
    (anyChar isDigit password),
    (anyChar (fun c => negb (isLowerLetter c || isUpperLetter c || isDigit c)) password).
  intros [] [] [] [] []; split; reflexivity.
Qed.

(** X5.  The score of [checkPasswordStrength] never exceeds [maxScore];
    a password that draws no feedback is rated strong; a password shorter
    than 8 characters draws the length feedback and scores at most 3, and
    the empty password scores 0. *)
Theorem checkPasswordStrength_score (password : string) :
  score (checkPasswordStrength password) <= maxScore (checkPasswordStrength password) /\
  (feedback (checkPasswordStrength password) = [] ->
   isStrong (checkPasswordStrength password) = true /\ 8 <= String.length password) /\
  (String.length password < 8 ->
   score (checkPasswordStrength password) <= 3 /\
   In "at least 8 characters"%string (feedback (checkPasswordStrength password))) /\
  (password = EmptyString -> score (checkPasswordStrength password) = 0).
Proof.
  destruct (checkPasswordStrength_unfold password) as [Hscore Hfeedback].
  change (maxScore (checkPasswordStrength password)) with 5.
  change (isStrong (checkPasswordStrength password))
    with (3 <=? score (checkPasswordStrength password)).
  rewrite Hscore, Hfeedback. clear Hscore Hfeedback.
  split; [|split; [|split]].
  - split_b2n; simpl; lia.
  - destruct (String.length password <? 8) eqn:Hshort; [discriminate|].
    destruct (anyChar isLowerLetter password && anyChar isUpperLetter password);
      [|discriminate].
    destruct (anyChar isDigit password); [|discriminate].
    intros _. apply Nat.ltb_ge in Hshort. split; [|exact Hshort].
    apply Nat.leb_le. cbn [negb].
    split_b2n; simpl; lia.
  - intro Hlen.
    assert (Hshort : (String.length password <? 8) = true) by now apply Nat.ltb_lt.
    assert (Hlong : (12 <=? String.length password) = false) by (apply Nat.leb_gt; lia).
    rewrite Hshort, Hlong. cbn [negb]. split; [|now left].
    split_b2n; simpl; lia.
  - intros ->. reflexivity.
Qed.

Lemma checkPasswordStrength_score_witness :
  isStrong (checkPasswordStrength "Correct horse 9") = true /\
  8 <= String.length "Correct horse 9".
Proof.
  apply (proj1 (proj2 (checkPasswordStrength_score "Correct horse 9"))). reflexivity.
Defined.






End Crypto.

(* ===================================================================== *)
(** * js/state.js: the Merkle commitment *)
(* ===================================================================== *)

Module Merkle.
Import JS Crypto.

(** One entry of an inclusion proof: [{ hash, position }]. *)
Record ProofStep : Type := mkStep {
  step_hash : string;
  step_position : string
}.

(** The result of [buildTree]: [{ root, layers }]; [None] is [null]. *)
Record Tree : Type := mkTree {
  root : option bytes;
  layers : list (list bytes)
}.

(** Induction over a list two elements at a time, the stride of the loop
    that builds a layer. *)
Lemma list_pair_ind (A : Type) (P : list A -> Prop) :
  P [] -> (forall a, P [a]) -> (forall a b l, P l -> P (a :: b :: l)) ->
  forall l, P l.
Proof.
  intros Hnil Hone Hstep.
  assert (H : forall l, P l /\ forall a, P (a :: l)).
  { induction l as [|x l [IH1 IH2]]; split; auto. }
  intro l. apply H.
Qed.

Section Hash.

(** [crypto.subtle.digest('SHA-256', bytes)]. *)
Variable sha256 : bytes -> bytes.

Definition hash (data : StringOrBytes) : bytes :=
  let bs := match data with Str s => TextEncoder_encode s | Bytes b => b end in
  sha256 bs.

Definition hashNodes (left right : bytes) : bytes :=
  let combined :=
    if String.ltb (bytesToHex left) (bytesToHex right)
    then left ++ right
    else right ++ left in
  hash (Bytes combined).

(** The [for (i = 0; i < current.length; i += 2)] loop of [buildTree]. *)
Fixpoint nextLayer (current : list bytes) : list bytes :=
  match current with
  | a :: b :: rest => hashNodes a b :: nextLayer rest
  | [a] => [a]
  | [] => []
  end.

Lemma nextLayer_length (current : list bytes) :
  length (nextLayer current) = Nat.div2 (S (length current)).
Proof.
  induction current as [| a | a b l IH] using list_pair_ind; simpl in *; auto.
Qed.

Lemma div2_S_lt (n : nat) : 1 < n -> Nat.div2 (S n) < n.
Proof.
  intro H. pose proof (Nat.div2_odd (S n)) as E.
  destruct (Nat.odd (S n)); simpl Nat.b2n in E; lia.
Qed.

(** The [while (current.length > 1)] loop of [buildTree], on the pair of
    mutable variables [layers] and [current]. *)
Equations? whileLoop (layers : list (list bytes)) (current : list bytes)
  : list (list bytes) * list bytes by wf (length current) lt :=
  whileLoop layers current with le_lt_dec (length current) 1 := {
    | left _ => (layers, current)
    | right _ => whileLoop (layers ++ [nextLayer current]) (nextLayer current) }.
Proof.
  rewrite nextLayer_length. now apply div2_S_lt.
Qed.

Definition buildTree (leaves : list bytes) : Tree :=
  match leaves with
  | [] => {| root := None; layers := [] |}
  | _ =>
      let '(layers, current) := whileLoop [leaves] leaves in
      {| root := hd_error current; layers := layers |}
  end.

(** [getProof]: the loop runs over every layer but the last. *)
Fixpoint getProof (layers : list (list bytes)) (index : nat) : list ProofStep :=
  match layers with
  | layer :: ((_ :: _) as rest) =>
      let isRight := index mod 2 =? 1 in
      let siblingIdx := if isRight then index - 1 else index + 1 in
      (if siblingIdx <? length layer
       then [ {| step_hash := bytesToHex (nth siblingIdx layer []);
                 step_position := if isRight then "left" else "right" |} ]
       else [])
      ++ getProof rest (index / 2)
  | _ => []
  end.

(** One iteration of the loop of [verifyProof]. *)
Definition verifyStep (current : bytes) (step : ProofStep) : bytes :=
  let sibling := hexToBytes (step_hash step) in
  if String.eqb (step_position step) "left"
  then hashNodes sibling current
  else hashNodes current sibling.

Definition toBytes (h : StringOrBytes) : bytes :=
  match h with Str s => hexToBytes s | Bytes b => b end.

Definition verifyProof (leafHash : StringOrBytes) (proof : list ProofStep)
  (root : StringOrBytes) : bool :=
  let current := fold_left verifyStep proof (toBytes leafHash) in
  let rootBytes := toBytes root in
  String.eqb (bytesToHex current) (bytesToHex rootBytes).

Definition hashDocument (pdfBytes : bytes) : bytes := hash (Bytes pdfBytes).

(** ** Pair hashing does not depend on the order of its arguments *)

Lemma hashNodes_comm (a b : bytes) : hashNodes a b = hashNodes b a.
Proof.
  unfold hashNodes.
  destruct (hex_ltb_cases a b) as [[-> ->] | [[-> ->] | (-> & -> & ->)]];
    reflexivity.
Qed.

Lemma verifyStep_position (current : bytes) (h p q : string) :
  verifyStep current (mkStep h p) = verifyStep current (mkStep h q).
Proof.
  unfold verifyStep; simpl.
  destruct (String.eqb p "left"), (String.eqb q "left");
    auto using hashNodes_comm.
Qed.

(** ** The layers built by [buildTree] *)

(** [climbs current rest top]: starting from [current], the loop appends the
    layers [rest] and stops with [top] as the value of [current]. *)
Inductive climbs : list bytes -> list (list bytes) -> list bytes -> Prop :=
| climbs_stop current :
    length current <= 1 -> climbs current [] current
| climbs_next current rest top :
    1 < length current ->
    climbs (nextLayer current) rest top ->
    climbs current (nextLayer current :: rest) top.

Lemma whileLoop_climbs (acc : list (list bytes)) (current : list bytes) :
  exists rest top,
    whileLoop acc current = (acc ++ rest, top) /\ climbs current rest top.
Proof.
  funelim (whileLoop acc current).
  - exists [], current. rewrite app_nil_r. split; [reflexivity | now constructor].
  - destruct H as (rest & top & Hloop & Hclimb).
    exists (nextLayer current :: rest), top. split.
    + rewrite Hloop, <- app_assoc. reflexivity.
    + now constructor.
Qed.

Lemma climbs_top_length current rest top :
  climbs current rest top -> current <> [] -> length top = 1.
Proof.
  induction 1 as [current Hle | current rest top Hlt _ IH]; intro Hne.
  - destruct current as [|a [|b l]]; simpl in *; try congruence; lia.
  - apply IH. intro E. rewrite E in IH.
    destruct current as [|a [|b l]]; simpl in *; try lia; discriminate.
Qed.

(** ** One level of the tree *)

Lemma step_index (k : nat) :
  S (S k) mod 2 = k mod 2 /\ S (S k) / 2 = S (k / 2).
Proof.
  replace (S (S k)) with (k + 1 * 2) by lia.
  rewrite Nat.Div0.mod_add, Nat.div_add by lia. lia.
Qed.

(** The entry [getProof] pushes for [index] at [layer], if any. *)
Definition proofEntry (layer : list bytes) (index : nat) : list ProofStep :=
  let isRight := index mod 2 =? 1 in
  let siblingIdx := if isRight then index - 1 else index + 1 in
  if siblingIdx <? length layer
  then [ {| step_hash := bytesToHex (nth siblingIdx layer []);
            step_position := if isRight then "left" else "right" |} ]
  else [].

Lemma getProof_cons (layer next : list bytes) (rest : list (list bytes)) (index : nat) :
  getProof (layer :: next :: rest) index
  = proofEntry layer index ++ getProof (next :: rest) (index / 2).
Proof. reflexivity. Qed.

Lemma proofEntry_skip (a b : bytes) (l : list bytes) (k : nat) :
  proofEntry (a :: b :: l) (S (S k)) = proofEntry l k.
Proof.
  unfold proofEntry. destruct (step_index k) as [-> _].
  destruct (k mod 2 =? 1) eqn:E.
  - apply Nat.eqb_eq in E.
    destruct k as [|k]; [discriminate|].
    replace (S (S (S k)) - 1) with (S (S k)) by lia.
    replace (S k - 1) with k by lia. reflexivity.
  - replace (S (S k) + 1) with (S (S (k + 1))) by lia. reflexivity.
Qed.

(** Hashing a node with the proof entry of its level gives its parent. *)
Lemma nextLayer_parent (current : list bytes) :
  forall index cur,
    nth_error current index = Some cur ->
    nth_error (nextLayer current) (index / 2)
    = Some (fold_left verifyStep (proofEntry current index) cur).
Proof.
  induction current as [| a | a b l IH] using list_pair_ind; intros index cur Hnth.
  - destruct index; discriminate.
  - destruct index as [|[|k]]; simpl in Hnth; try discriminate.
    now inversion Hnth.
  - destruct index as [|[|k]].
    + inversion Hnth; subst.
      change (proofEntry (cur :: b :: l) 0) with [mkStep (bytesToHex b) "right"].
      change (nextLayer (cur :: b :: l)) with (hashNodes cur b :: nextLayer l).
      unfold fold_left, verifyStep, step_hash, step_position.
      now rewrite hexToBytes_bytesToHex.
    + inversion Hnth; subst.
      change (proofEntry (a :: cur :: l) 1) with [mkStep (bytesToHex a) "left"].
      change (nextLayer (a :: cur :: l)) with (hashNodes a cur :: nextLayer l).
      unfold fold_left, verifyStep, step_hash, step_position.
      now rewrite hexToBytes_bytesToHex.
    + rewrite proofEntry_skip. destruct (step_index k) as [_ ->].
      simpl in *. now apply IH.
Qed.

Lemma nextLayer_nil (current : list bytes) : nextLayer current = [] -> current = [].
Proof. destruct current as [|a [|b l]]; simpl; congruence. Qed.

(** Folding the proof of [index] over its leaf reaches an element of the
    top layer. *)
Lemma climbs_fold current rest top :
  climbs current rest top ->
  forall index cur,
    nth_error current index = Some cur ->
    exists j,
      nth_error top j
      = Some (fold_left verifyStep (getProof (current :: rest) index) cur).
Proof.
  induction 1 as [current Hle | current rest top Hlt Hclimb IH];
    intros index cur Hnth.
  - exists index. exact Hnth.
  - rewrite getProof_cons, fold_left_app.
    apply (IH (index / 2)). now apply nextLayer_parent.
Qed.

Lemma buildTree_climbs (leaves : list bytes) :
  leaves <> [] ->
  exists rest top,
    buildTree leaves = {| root := hd_error top; layers := leaves :: rest |}
    /\ climbs leaves rest top.
Proof.
  intro Hne. destruct (whileLoop_climbs [leaves] leaves) as (rest & top & Hloop & Hclimb).
  exists rest, top. split; [|assumption].
  unfold buildTree. destruct leaves as [|a l]; [congruence|].
  now rewrite Hloop.
Qed.

(** The inclusion proof of a leaf recomputes the root. *)
Lemma verifyProof_getProof (leaves : list bytes) (i : nat) (leaf : bytes) :
  nth_error leaves i = Some leaf ->
  exists r,
    root (buildTree leaves) = Some r /\
    fold_left verifyStep (getProof (layers (buildTree leaves)) i) leaf = r.
Proof.
  intro Hnth.
  assert (Hne : leaves <> []) by (intros ->; destruct i; discriminate).
  destruct (buildTree_climbs leaves Hne) as (rest & top & -> & Hclimb). simpl.
  destruct (climbs_fold _ _ _ Hclimb i leaf Hnth) as [j Hj].
  pose proof (climbs_top_length _ _ _ Hclimb Hne) as Hlen.
  destruct top as [|t [|t' top]]; simpl in Hlen; try discriminate.
  destruct j as [|j]; simpl in Hj; [|destruct j; discriminate].
  exists t. split; [reflexivity | congruence].
Qed.

(** ** Tampering *)

(** The byte array [hashNodes] hands to the hash function. *)
Definition combined (left right : bytes) : bytes :=
  if String.ltb (bytesToHex left) (bytesToHex right)
  then left ++ right
  else right ++ left.

Lemma hashNodes_combined (a b : bytes) : hashNodes a b = sha256 (combined a b).
Proof. reflexivity. Qed.

Lemma app_same_length_inj (A : Type) (x y u v : list A) :
  length x = length y -> x ++ u = y ++ v -> x = y /\ u = v.
Proof.
  revert y. induction x as [|a x IH]; intros [|b y] Hlen H; simpl in *;
    try discriminate; auto.
  injection H as -> H. injection Hlen as Hlen.
  destruct (IH y Hlen H) as [-> ->]. auto.
Qed.

(** With a sibling of the same length, the combined input determines the
    other operand. *)
Lemma combined_inj (a a' s : bytes) :
  length a = length s -> combined a' s = combined a s -> a' = a.
Proof.
  intros Hlen H.
  assert (Hlen' : length a' = length a).
  { apply (f_equal (@length byte)) in H. unfold combined in H.
    destruct (String.ltb _ _), (String.ltb _ _);
      rewrite !length_app in H; lia. }
  unfold combined in H.
  destruct (String.ltb (bytesToHex a') (bytesToHex s)),
           (String.ltb (bytesToHex a) (bytesToHex s)).
  - now apply app_inv_tail in H.
  - apply app_same_length_inj in H; [|lia]. destruct H; congruence.
  - apply app_same_length_inj in H; [|lia]. destruct H; congruence.
  - now apply app_inv_head in H.
Qed.

Lemma combined_comm (a b : bytes) : combined a b = combined b a.
Proof.
  unfold combined.
  destruct (hex_ltb_cases a b) as [[-> ->] | [[-> ->] | (-> & -> & ->)]];
    reflexivity.
Qed.

(** The byte array a step of the loop of [verifyProof] hands to the hash
    function. *)
Definition stepInput (current : bytes) (step : ProofStep) : bytes :=
  let sibling := hexToBytes (step_hash step) in
  if String.eqb (step_position step) "left"
  then combined sibling current
  else combined current sibling.

Lemma verifyStep_stepInput (current : bytes) (st : ProofStep) :
  verifyStep current st = sha256 (stepInput current st).
Proof. unfold verifyStep, stepInput. destruct (String.eqb _ _); reflexivity. Qed.

Lemma stepInput_combined (current : bytes) (st : ProofStep) :
  stepInput current st = combined current (hexToBytes (step_hash st)).
Proof.
  unfold stepInput. destruct (String.eqb _ _); auto using combined_comm.
Qed.

(** The value of [current] in [verifyProof] after [j] rounds of the loop. *)
Definition currentAt (proof : list ProofStep) (start : bytes) (j : nat) : bytes :=
  fold_left verifyStep (firstn j proof) start.

(** Round [j] of the loop over [proof] from [start] and round [j] of the loop
    over [proof'] from [start'] hand two different byte arrays to the hash
    function and get the same digest. *)
Definition collidesAt (proof proof' : list ProofStep) (start start' : bytes)
  (j : nat) : Prop :=
  exists st st',
    nth_error proof j = Some st /\
    nth_error proof' j = Some st' /\
    stepInput (currentAt proof start j) st
      <> stepInput (currentAt proof' start' j) st' /\
    sha256 (stepInput (currentAt proof start j) st)
      = sha256 (stepInput (currentAt proof' start' j) st').

Lemma collidesAt_cons (proof proof' : list ProofStep) (c c' : bytes)
  (st st' : ProofStep) (j : nat) :
  collidesAt proof proof' (verifyStep c st) (verifyStep c' st') j ->
  collidesAt (st :: proof) (st' :: proof') c c' (S j).
Proof. intro H. exact H. Qed.

Lemma fold_verifyStep_skipn (proof : list ProofStep) :
  forall j c st,
    nth_error proof j = Some st ->
    fold_left verifyStep proof c
    = fold_left verifyStep (skipn (S j) proof) (verifyStep (currentAt proof c j) st).
Proof.
  induction proof as [|st0 proof IH]; intros [|j] c st Hnth; try discriminate.
  - injection Hnth as ->. reflexivity.
  - apply (IH j (verifyStep c st0) st Hnth).
Qed.

(** After a collision the two runs carry the same value; they end in the
    same value when the proofs agree from there on. *)
Lemma collidesAt_fold (proof proof' : list ProofStep) (c c' : bytes) (j : nat) :
  collidesAt proof proof' c c' j ->
  skipn (S j) proof = skipn (S j) proof' ->
  fold_left verifyStep proof c = fold_left verifyStep proof' c'.
Proof.
  intros (st & st' & Hnth & Hnth' & _ & Heq) Hrest.
  rewrite (fold_verifyStep_skipn proof j c st Hnth),
          (fold_verifyStep_skipn proof' j c' st' Hnth').
  rewrite !verifyStep_stepInput, Heq, Hrest. reflexivity.
Qed.

Lemma verifyStep_hashNodes (current : bytes) (st : ProofStep) :
  verifyStep current st = hashNodes current (hexToBytes (step_hash st)).
Proof.
  unfold verifyStep. destruct (String.eqb _ _); auto using hashNodes_comm.
Qed.

Section Digest.

(** SHA-256 digests are 32 bytes long. *)
Hypothesis sha256_length : forall x, length (sha256 x) = 32.

Definition is_hash (h : bytes) : Prop := length h = 32.

(** Every sibling named by the proof decodes to 32 bytes. *)
Definition wellSized (proof : list ProofStep) : Prop :=
  Forall (fun st => is_hash (hexToBytes (step_hash st))) proof.

Lemma verifyStep_length (current : bytes) (st : ProofStep) :
  is_hash (verifyStep current st).
Proof. rewrite verifyStep_hashNodes, hashNodes_combined. apply sha256_length. Qed.

Lemma fold_verifyStep_length (proof : list ProofStep) (current : bytes) :
  is_hash current -> is_hash (fold_left verifyStep proof current).
Proof.
  revert current. induction proof as [|st proof IH]; intros current H; simpl; auto.
  apply IH, verifyStep_length.
Qed.

(** Two runs of the verification loop over the same proof that end in the
    same value started from the same value, or collide in some round. *)
Lemma fold_verifyStep_inj (proof : list ProofStep) :
  wellSized proof ->
  forall c c', is_hash c ->
    fold_left verifyStep proof c' = fold_left verifyStep proof c ->
    c' = c \/ exists j, collidesAt proof proof c c' j.
Proof.
  induction 1 as [|st proof Hst _ IH]; intros c c' Hc H; simpl in H; auto.
  destruct (IH _ _ (verifyStep_length c st) H) as [E | [j Hj]].
  - rewrite !verifyStep_stepInput in E.
    destruct (list_eq_dec Byte.byte_eq_dec (stepInput c st) (stepInput c' st))
      as [Ein | NE].
    + left. rewrite !stepInput_combined in Ein.
      apply (combined_inj c c' (hexToBytes (step_hash st)));
        [unfold is_hash in *; congruence | now symmetry].
    + right. exists 0, st, st. repeat split; auto.
  - right. exists (S j). now apply collidesAt_cons.
Qed.

Lemma nextLayer_sized (current : list bytes) :
  Forall is_hash current -> Forall is_hash (nextLayer current).
Proof.
  induction current as [| a | a b l IH] using list_pair_ind; intro H; simpl; auto.
  constructor.
  - rewrite hashNodes_combined. apply sha256_length.
  - apply IH. now inversion H as [|? ? _ H']; inversion H'.
Qed.

Lemma climbs_sized current rest top :
  climbs current rest top -> Forall is_hash current -> Forall (Forall is_hash) rest.
Proof.
  induction 1 as [current Hle | current rest top Hlt _ IH]; intro Hsized;
    constructor; auto using nextLayer_sized.
Qed.

Lemma proofEntry_sized (layer : list bytes) (index : nat) :
  Forall is_hash layer -> wellSized (proofEntry layer index).
Proof.
  intro H. unfold proofEntry.
  destruct (_ <? length layer) eqn:E; constructor; [|constructor].
  simpl. rewrite hexToBytes_bytesToHex.
  apply Nat.ltb_lt in E. rewrite Forall_forall in H. apply H. now apply nth_In.
Qed.

Lemma getProof_sized (lys : list (list bytes)) :
  Forall (Forall is_hash) lys -> forall index, wellSized (getProof lys index).
Proof.
  induction 1 as [|layer rest Hl Hrest IH]; intro index; [constructor|].
  destruct rest as [|next rest]; [constructor|].
  rewrite getProof_cons. apply Forall_app. split.
  - now apply proofEntry_sized.
  - apply IH.
Qed.

(** The proof with the [hash] of entry [k] overwritten by [h']. *)
Fixpoint setHashAt (k : nat) (h' : string) (proof : list ProofStep) : list ProofStep :=
  match proof, k with
  | [], _ => []
  | e :: rest, 0 => mkStep h' (step_position e) :: rest
  | e :: rest, S k' => e :: setHashAt k' h' rest
  end.

Lemma skipn_setHashAt (proof : list ProofStep) :
  forall k j h', k <= j -> skipn (S j) (setHashAt k h' proof) = skipn (S j) proof.
Proof.
  induction proof as [|st proof IH]; intros k j h' Hle; [now destruct k|].
  destruct k as [|k]; [reflexivity|].
  destruct j as [|j]; [lia|].
  apply (IH k j h'). lia.
Qed.

(** A run over a proof with entry [k] replaced by different bytes that ends
    in the same value as the run over the proof collides with it in round
    [k] or later. *)
Lemma fold_setHashAt (proof : list ProofStep) :
  wellSized proof ->
  forall k e h' c,
    is_hash c ->
    nth_error proof k = Some e ->
    hexToBytes h' <> hexToBytes (step_hash e) ->
    fold_left verifyStep (setHashAt k h' proof) c = fold_left verifyStep proof c ->
    exists j, k <= j /\ collidesAt proof (setHashAt k h' proof) c c j.
Proof.
  induction 1 as [|st proof Hst Hsized IH]; intros k e h' c Hc Hnth Hne Hfold.
  - destruct k; discriminate.
  - destruct k as [|k]; simpl in Hnth, Hfold.
    + injection Hnth as ->.
      apply (fold_verifyStep_inj proof Hsized) in Hfold; [|apply verifyStep_length].
      destruct Hfold as [E | [j Hj]].
      * exists 0. split; [lia|].
        exists e, (mkStep h' (step_position e)). repeat split; auto.
        -- change (stepInput c e <> stepInput c (mkStep h' (step_position e))).
           rewrite !stepInput_combined. cbn [step_hash].
           rewrite (combined_comm c), (combined_comm c (hexToBytes h')).
           intro Ein. apply Hne.
           apply (combined_inj (hexToBytes (step_hash e)) (hexToBytes h') c);
             [unfold is_hash in *; congruence | now symmetry].
        -- change (sha256 (stepInput c e)
                   = sha256 (stepInput c (mkStep h' (step_position e)))).
           rewrite <- !verifyStep_stepInput. now symmetry.
      * exists (S j). split; [lia|]. now apply collidesAt_cons.
    + destruct (IH k e h' (verifyStep c st)) as (j & Hle & Hj);
        auto using verifyStep_length.
      exists (S j). split; [lia|]. now apply collidesAt_cons.
Qed.

Lemma fold_setHashAt_same (proof : list ProofStep) :
  forall k e h' c,
    nth_error proof k = Some e ->
    hexToBytes h' = hexToBytes (step_hash e) ->
    fold_left verifyStep (setHashAt k h' proof) c = fold_left verifyStep proof c.
Proof.
  induction proof as [|st proof IH]; intros k e h' c Hnth Hsame.
  - destruct k; discriminate.
  - destruct k as [|k]; simpl in *.
    + injection Hnth as ->. f_equal.
      rewrite !verifyStep_hashNodes. simpl. now rewrite Hsame.
    + eapply IH; eassumption.
Qed.

(** C1 (as amended).  For a non-empty list of 32-byte leaves and an index
    [i] into it, the proof [getProof] extracts for leaf [i] verifies against
    the root of [buildTree].  With the leaf replaced by different bytes,
    [verifyProof] returns [true] exactly when some round of its loop hands
    the hash function a byte array different from the one the untampered run
    hands it in that round, and gets the same digest; otherwise it returns
    [false].  With the hash of proof entry [k] replaced by a string that
    decodes to different bytes, likewise, for a round from [k] on.
    Replacing the hash of a proof entry by a string that decodes to the same
    bytes leaves the result [true]. *)
Theorem merkle_roundtrip_and_tamper (leaves : list bytes) (i : nat) (leaf : bytes) :
  Forall is_hash leaves ->
  nth_error leaves i = Some leaf ->
  exists r,
    root (buildTree leaves) = Some r /\
    verifyProof (Bytes leaf) (getProof (layers (buildTree leaves)) i) (Bytes r) = true /\
    (forall leaf',
        leaf' <> leaf ->
        verifyProof (Bytes leaf') (getProof (layers (buildTree leaves)) i) (Bytes r) = true
        <-> exists j,
              collidesAt (getProof (layers (buildTree leaves)) i)
                         (getProof (layers (buildTree leaves)) i) leaf leaf' j) /\
    (forall k e h',
        nth_error (getProof (layers (buildTree leaves)) i) k = Some e ->
        hexToBytes h' <> hexToBytes (step_hash e) ->
        verifyProof (Bytes leaf)
          (setHashAt k h' (getProof (layers (buildTree leaves)) i)) (Bytes r) = true
        <-> exists j,
              k <= j /\
              collidesAt (getProof (layers (buildTree leaves)) i)
                         (setHashAt k h' (getProof (layers (buildTree leaves)) i))
                         leaf leaf j) /\
    (forall k e h',
        nth_error (getProof (layers (buildTree leaves)) i) k = Some e ->
        hexToBytes h' = hexToBytes (step_hash e) ->
        verifyProof (Bytes leaf)
          (setHashAt k h' (getProof (layers (buildTree leaves)) i)) (Bytes r) = true).
Proof.
  intros Hleaves Hnth.
  destruct (verifyProof_getProof leaves i leaf Hnth) as (r & Hroot & Hfold).
  assert (Hleaf : is_hash leaf).
  { rewrite Forall_forall in Hleaves. eapply Hleaves, nth_error_In, Hnth. }
  assert (Hsized : wellSized (getProof (layers (buildTree leaves)) i)).
  { assert (Hne : leaves <> []) by (intros ->; destruct i; discriminate).
    destruct (buildTree_climbs leaves Hne) as (rest & top & -> & Hclimb).
    apply getProof_sized. constructor; eauto using climbs_sized. }
  exists r. split; [assumption|]. split; [|split; [|split]].
  - unfold verifyProof, toBytes. now apply bytesToHex_eqb.
  - intros leaf' Hne. split.
    + intro Hv. apply bytesToHex_eqb in Hv. cbn [toBytes] in Hv.
      rewrite <- Hfold in Hv.
      destruct (fold_verifyStep_inj _ Hsized _ _ Hleaf Hv); [contradiction | assumption].
    + intros [j Hj]. unfold verifyProof. cbn [toBytes]. apply bytesToHex_eqb.
      rewrite <- Hfold. symmetry. now apply (collidesAt_fold _ _ _ _ j).
  - intros k e h' Hk Hne. split.
    + intro Hv. apply bytesToHex_eqb in Hv. cbn [toBytes] in Hv.
      rewrite <- Hfold in Hv.
      eapply fold_setHashAt; eassumption.
    + intros (j & Hle & Hj). unfold verifyProof. cbn [toBytes]. apply bytesToHex_eqb.
      rewrite <- Hfold. symmetry. apply (collidesAt_fold _ _ _ _ j Hj).
      symmetry. now apply skipn_setHashAt.
  - intros k e h' Hk Hsame. unfold verifyProof, toBytes.
    apply bytesToHex_eqb. now rewrite (fold_setHashAt_same _ k e h' leaf Hk Hsame).
Qed.

End Digest.

(** C2.  [hashNodes] gives the same digest for both orders of its arguments:
    it hashes the concatenation that puts the array with the smaller hex
    string first.  Hence [verifyProof] depends on the sibling hashes of a
    proof only, not on the position hints. *)
Theorem hashNodes_content_ordered (a b : bytes) :
  hashNodes a b = hashNodes b a /\
  hashNodes a b
  = sha256 (if String.ltb (bytesToHex a) (bytesToHex b) then a ++ b else b ++ a) /\
  forall (leafHash root : StringOrBytes) (proof proof' : list ProofStep),
    map step_hash proof = map step_hash proof' ->
    verifyProof leafHash proof root = verifyProof leafHash proof' root.
Proof.
  split; [apply hashNodes_comm|]. split; [reflexivity|].
  intros leafHash rt proof proof' Hhashes. unfold verifyProof.
  f_equal. f_equal. generalize (toBytes leafHash) as current.
  revert proof' Hhashes.
  induction proof as [|[h p] proof IH]; intros [|[h' q] proof'] Hhashes current;
    try discriminate; [reflexivity|].
  simpl in Hhashes. injection Hhashes as -> Hhashes. simpl.
  rewrite (verifyStep_position current h' p q). now apply IH.
Qed.

(** C10.  [buildTree] of the empty leaf sequence returns a [null] root and
    no layers. *)
Theorem buildTree_empty : buildTree [] = {| root := None; layers := [] |}.
Proof. reflexivity. Qed.

End Hash.

(** ** Concrete trees *)

(** A 32-byte stand-in for the digest, to run the definitions on examples:
    the first 32 bytes of the zero-padded input. *)
Definition paddedPrefix (x : bytes) : bytes := firstn 32 (x ++ repeat x00 32).

Lemma paddedPrefix_length (x : bytes) : length (paddedPrefix x) = 32.
Proof.
  unfold paddedPrefix. rewrite length_firstn, length_app, repeat_length. lia.
Qed.

Definition leafA : bytes := repeat x00 32.
Definition leafB : bytes := repeat xab 32.

(** The hex string of [leafB] written with upper-case digits. *)
Definition upperHexB : string :=
  "ABABABABABABABABABABABABABABABABABABABABABABABABABABABABABABABAB".

Definition leafC : bytes := repeat x11 32.

(** A second 32-byte stand-in: the bytewise exclusive or of the first two
    zero-padded 32-byte blocks of the input. *)
Definition xorByte (a b : byte) : byte :=
  JS.byteOfN (N.lxor (Byte.to_N a) (Byte.to_N b)).

Definition block (k : nat) (x : bytes) : bytes :=
  firstn 32 (skipn (32 * k) x ++ repeat x00 32).

Definition xorBlocks (x : bytes) : bytes :=
  map (fun p => xorByte (fst p) (snd p)) (combine (block 0 x) (block 1 x)).

Lemma block_length (k : nat) (x : bytes) : length (block k x) = 32.
Proof.
  unfold block. rewrite length_firstn, length_app, repeat_length. lia.
Qed.

Lemma xorBlocks_length (x : bytes) : length (xorBlocks x) = 32.
Proof.
  unfold xorBlocks. rewrite length_map, length_combine, !block_length.
  reflexivity.
Qed.

(** The root of the two-leaf tree over [leafB] and [leafC] under
    [xorBlocks]. *)
Definition rootBC : bytes := repeat xba 32.

Lemma merkle_roundtrip_and_tamper_witness :
  root (buildTree xorBlocks [leafB; leafC]) = Some rootBC /\
  verifyProof xorBlocks (Bytes leafC)
    (getProof (layers (buildTree xorBlocks [leafB; leafC])) 1) (Bytes rootBC) = true /\
  verifyProof xorBlocks (Bytes leafA)
    (getProof (layers (buildTree xorBlocks [leafB; leafC])) 1) (Bytes rootBC) = false /\
  verifyProof xorBlocks (Bytes leafC)
    (setHashAt 0 (bytesToHex leafA)
       (getProof (layers (buildTree xorBlocks [leafB; leafC])) 1))
    (Bytes rootBC) = false /\
  verifyProof xorBlocks (Bytes leafC)
    (setHashAt 0 upperHexB
       (getProof (layers (buildTree xorBlocks [leafB; leafC])) 1))
    (Bytes rootBC) = true.
Proof.
  destruct (merkle_roundtrip_and_tamper xorBlocks xorBlocks_length
              [leafB; leafC] 1 leafC)
    as (r & Hroot & Hok & Hleaf & Hentry & Hsame).
  - repeat constructor.
  - reflexivity.
  - assert (Htree : buildTree xorBlocks [leafB; leafC]
                    = {| root := Some rootBC; layers := [[leafB; leafC]; [rootBC]] |}).
    { unfold buildTree. now simp whileLoop. }
    rewrite Htree in *. cbn [root layers] in *.
    injection Hroot as <-.
    change (getProof [[leafB; leafC]; [rootBC]] 1)
      with [mkStep (bytesToHex leafB) "left"] in *.
    split; [reflexivity|]. split; [exact Hok|]. split; [|split].
    + destruct (verifyProof xorBlocks (Bytes leafA) _ (Bytes rootBC)) eqn:Hv;
        [exfalso | reflexivity].
      apply (Hleaf leafA) in Hv; [|discriminate].
      destruct Hv as (j & st & st' & Hst & Hst' & _ & Heq).
      destruct j as [|[|j]]; try discriminate.
      injection Hst as <-. injection Hst' as <-.
      vm_compute in Heq. discriminate Heq.
    + destruct (verifyProof xorBlocks (Bytes leafC)
                  (setHashAt 0 (bytesToHex leafA) [mkStep (bytesToHex leafB) "left"])
                  (Bytes rootBC)) eqn:Hv;
        [exfalso | reflexivity].
      apply (Hentry 0 (mkStep (bytesToHex leafB) "left") (bytesToHex leafA)) in Hv;
        [|reflexivity | vm_compute; discriminate].
      destruct Hv as (j & _ & st & st' & Hst & Hst' & _ & Heq).
      destruct j as [|[|j]]; try discriminate.
      injection Hst as <-. injection Hst' as <-.
      vm_compute in Heq. discriminate Heq.
    + apply (Hsame 0 (mkStep (bytesToHex leafB) "left") upperHexB);
        reflexivity.
Defined.

Lemma hashNodes_content_ordered_witness :
  verifyProof paddedPrefix (Bytes leafA) [mkStep (bytesToHex leafB) "right"]
    (Bytes (hashNodes paddedPrefix leafA leafB))
  = verifyProof paddedPrefix (Bytes leafA) [mkStep (bytesToHex leafB) "left"]
      (Bytes (hashNodes paddedPrefix leafA leafB)).
Proof.
  apply (proj2 (proj2 (hashNodes_content_ordered paddedPrefix leafA leafB))).
  reflexivity.
Defined.

(** C1, counterexample.  In the two-leaf tree over [leafA] and [leafB], the
    proof of [leafA] has one entry, the lower-case hex of [leafB].  Writing
    that entry in upper case changes the proof, and [verifyProof] still
    returns [true], whatever the hash function is. *)
Lemma uppercase_entry_still_verifies :
  upperHexB <> bytesToHex leafB /\
  forall sha256 : bytes -> bytes,
    root (buildTree sha256 [leafA; leafB]) = Some (hashNodes sha256 leafA leafB) /\
    getProof (layers (buildTree sha256 [leafA; leafB])) 0
    = [mkStep (bytesToHex leafB) "right"] /\
    verifyProof sha256 (Bytes leafA)
      (setHashAt 0 upperHexB (getProof (layers (buildTree sha256 [leafA; leafB])) 0))
      (Bytes (hashNodes sha256 leafA leafB)) = true.
Proof.
  split; [discriminate|]. intro sha256.
  assert (Htree : buildTree sha256 [leafA; leafB]
                  = {| root := Some (hashNodes sha256 leafA leafB);
                       layers := [[leafA; leafB]; [hashNodes sha256 leafA leafB]] |}).
  { unfold buildTree. now simp whileLoop. }
  rewrite Htree. split; [reflexivity|]. split; [reflexivity|].
  unfold verifyProof. cbn [layers getProof setHashAt app fold_left toBytes].
  apply String.eqb_refl.
Qed.

(** ** The shape of the tree *)

Section Shape.

Variable sha256 : bytes -> bytes.

Lemma climbs_functional current rest top :
  climbs sha256 current rest top ->
  forall rest' top', climbs sha256 current rest' top' -> rest = rest' /\ top = top'.
Proof.
  induction 1 as [current Hle | current rest top Hlt _ IH]; intros rest' top' H'.
  - inversion H' as [c Hle' | c r t Hlt' Hc']; subst; [auto | lia].
  - inversion H' as [c Hle' | c r t Hlt' Hc']; subst; [lia|].
    destruct (IH _ _ Hc') as [-> ->]. auto.
Qed.

Lemma climbs_chain current rest top :
  climbs sha256 current rest top ->
  last (current :: rest) [] = top /\
  forall j, S j < length (current :: rest) ->
    nth (S j) (current :: rest) [] = nextLayer sha256 (nth j (current :: rest) []) /\
    1 < length (nth j (current :: rest) []).
Proof.
  induction 1 as [current Hle | current rest top Hlt _ [IHlast IHnth]].
  - split; [reflexivity|]. intros j Hj. simpl in Hj. lia.
  - split; [exact IHlast|]. intros [|j] Hj.
    + split; [reflexivity | exact Hlt].
    + apply IHnth. simpl in *. lia.
Qed.

Lemma double_div2 (n : nat) : n <= 2 * Nat.div2 (S n) /\ 2 * Nat.div2 (S n) <= S n.
Proof.
  pose proof (Nat.div2_odd (S n)) as E.
  destruct (Nat.odd (S n)); simpl Nat.b2n in E; lia.
Qed.

Lemma climbs_size current rest top :
  climbs sha256 current rest top ->
  length current <= 2 ^ length rest /\
  (rest <> [] -> 2 ^ (length rest - 1) < length current).
Proof.
  induction 1 as [current Hle | current rest top Hlt _ [IHup IHlow]].
  - split; [simpl; lia | congruence].
  - pose proof (double_div2 (length current)) as [Hd1 Hd2].
    rewrite nextLayer_length in IHup, IHlow.
    split.
    + cbn [length]. rewrite Nat.pow_succ_r'. lia.
    + intros _. cbn [length]. rewrite Nat.sub_succ, Nat.sub_0_r.
      destruct rest as [|layer rest]; [simpl; lia|].
      assert (Hlow : 2 ^ (length (layer :: rest) - 1) < Nat.div2 (S (length current)))
        by (apply IHlow; discriminate).
      cbn [length] in *. rewrite Nat.sub_succ, Nat.sub_0_r in Hlow.
      rewrite Nat.pow_succ_r'. lia.
Qed.

Lemma getProof_length (lys : list (list bytes)) (index : nat) :
  length (getProof lys index) <= length lys - 1.
Proof.
  revert index. induction lys as [|layer lys IH]; intro index; [simpl; lia|].
  destruct lys as [|next lys]; [simpl; lia|].
  rewrite getProof_cons, length_app. specialize (IH (index / 2)).
  assert (length (proofEntry layer index) <= 1).
  { unfold proofEntry. destruct (_ <? _); simpl; lia. }
  cbn [length] in *. lia.
Qed.

(** X6.  For a non-empty leaf sequence, the first layer [buildTree] returns
    is the leaf sequence itself, every further layer is built from the one
    before it, which has more than one node, and the last layer holds the
    root alone. *)
Theorem buildTree_layers (leaves : list bytes) :
  leaves <> [] ->
  exists r,
    root (buildTree sha256 leaves) = Some r /\
    hd_error (layers (buildTree sha256 leaves)) = Some leaves /\
    last (layers (buildTree sha256 leaves)) [] = [r] /\
    forall j, S j < length (layers (buildTree sha256 leaves)) ->
      nth (S j) (layers (buildTree sha256 leaves)) []
      = nextLayer sha256 (nth j (layers (buildTree sha256 leaves)) []) /\
      1 < length (nth j (layers (buildTree sha256 leaves)) []).
Proof.
  intro Hne.
  destruct (buildTree_climbs sha256 leaves Hne) as (rest & top & -> & Hclimb).
  pose proof (climbs_top_length sha256 _ _ _ Hclimb Hne) as Hlen.
  destruct (climbs_chain _ _ _ Hclimb) as [Hlast Hnth].
  destruct top as [|r [|r' top]]; simpl in Hlen; try discriminate.
  exists r. cbn [root layers hd_error]. auto.
Qed.

(** X7.  The tree over [n] leaves has the least number of layers above the
    leaves whose power of two reaches [n], and an inclusion proof has at
    most that many entries. *)
Theorem buildTree_height (leaves : list bytes) :
  leaves <> [] ->
  length leaves <= 2 ^ (length (layers (buildTree sha256 leaves)) - 1) /\
  (2 <= length leaves ->
   2 ^ (length (layers (buildTree sha256 leaves)) - 2) < length leaves) /\
  forall index,
    length (getProof (layers (buildTree sha256 leaves)) index)
    <= length (layers (buildTree sha256 leaves)) - 1.
Proof.
  intro Hne.
  destruct (buildTree_climbs sha256 leaves Hne) as (rest & top & -> & Hclimb).
  destruct (climbs_size _ _ _ Hclimb) as [Hup Hlow].
  cbn [layers length]. rewrite Nat.sub_succ, Nat.sub_0_r.
  split; [exact Hup|]. split.
  - intro H2. destruct rest as [|layer rest].
    + inversion Hclimb; subst. lia.
    + replace (S (length (layer :: rest)) - 2) with (length (layer :: rest) - 1)
        by (cbn [length]; lia).
      apply Hlow. discriminate.
  - intro index.
    pose proof (getProof_length (leaves :: rest) index) as H.
    cbn [length] in H. lia.
Qed.

Lemma root_nextLayer (leaves : list bytes) :
  leaves <> [] ->
  root (buildTree sha256 (nextLayer sha256 leaves)) = root (buildTree sha256 leaves).
Proof.
  intro Hne.
  destruct leaves as [|a [|b l]]; [congruence | reflexivity |].
  destruct (buildTree_climbs sha256 (a :: b :: l) Hne) as (rest & top & -> & Hclimb).
  assert (Hne' : nextLayer sha256 (a :: b :: l) <> []) by discriminate.
  destruct (buildTree_climbs sha256 _ Hne') as (rest' & top' & -> & Hclimb').
  cbn [root]. f_equal.
  inversion Hclimb as [c Hle | c r t Hlt Hc]; subst.
  - simpl in Hle. lia.
  - now destruct (climbs_functional _ _ _ Hclimb' _ _ Hc) as [_ ->].
Qed.

(** X8.  The root does not tell leaves from inner nodes: the tree built
    over the second layer of a tree has the same root as the tree itself. *)
Theorem root_of_second_layer (leaves : list bytes) :
  leaves <> [] ->
  root (buildTree sha256 (nextLayer sha256 leaves)) = root (buildTree sha256 leaves).
Proof. exact (root_nextLayer leaves). Qed.

Lemma nextLayer_swap (before after : list bytes) (a b : bytes) :
  Nat.even (length before) = true ->
  nextLayer sha256 (before ++ a :: b :: after)
  = nextLayer sha256 (before ++ b :: a :: after).
Proof.
  induction before as [| x | x y l IH] using list_pair_ind; intro Heven.
  - simpl. now rewrite hashNodes_comm.
  - discriminate Heven.
  - cbn [app nextLayer]. f_equal. apply IH. exact Heven.
Qed.

(** X9.  Exchanging the two leaves of a pair (the leaves at positions
    [2k] and [2k + 1]) does not change the root. *)
Theorem root_swap_pair (before after : list bytes) (a b : bytes) :
  Nat.even (length before) = true ->
  root (buildTree sha256 (before ++ a :: b :: after))
  = root (buildTree sha256 (before ++ b :: a :: after)).
Proof.
  intro Heven.
  rewrite <- (root_nextLayer (before ++ a :: b :: after))
    by (destruct before; discriminate).
  rewrite <- (root_nextLayer (before ++ b :: a :: after))
    by (destruct before; discriminate).
  now rewrite (nextLayer_swap before after a b Heven).
Qed.

(** X10.  [verifyProof] takes the leaf and the root as byte arrays or as
    their hex strings with the same result, and with an empty proof it
    returns [true] exactly when the leaf and the root are the same bytes. *)
Theorem verifyProof_arguments (leaf r : bytes) (proof : list ProofStep) :
  verifyProof sha256 (Str (bytesToHex leaf)) proof (Str (bytesToHex r))
  = verifyProof sha256 (Bytes leaf) proof (Bytes r) /\
  verifyProof sha256 (Str (bytesToHex leaf)) proof (Bytes r)
  = verifyProof sha256 (Bytes leaf) proof (Bytes r) /\
  (verifyProof sha256 (Bytes leaf) [] (Bytes r) = true <-> leaf = r).
Proof.
  unfold verifyProof, toBytes. rewrite !hexToBytes_bytesToHex.
  split; [reflexivity|]. split; [reflexivity|].
  cbn [fold_left]. apply bytesToHex_eqb.
Qed.

End Shape.

Lemma buildTree_layers_witness :
  exists r,
    root (buildTree paddedPrefix [leafA; leafB; leafA]) = Some r /\
    hd_error (layers (buildTree paddedPrefix [leafA; leafB; leafA]))
    = Some [leafA; leafB; leafA] /\
    last (layers (buildTree paddedPrefix [leafA; leafB; leafA])) [] = [r] /\
    forall j, S j < length (layers (buildTree paddedPrefix [leafA; leafB; leafA])) ->
      nth (S j) (layers (buildTree paddedPrefix [leafA; leafB; leafA])) []
      = nextLayer paddedPrefix
          (nth j (layers (buildTree paddedPrefix [leafA; leafB; leafA])) []) /\
      1 < length (nth j (layers (buildTree paddedPrefix [leafA; leafB; leafA])) []).
Proof.
  apply (buildTree_layers paddedPrefix [leafA; leafB; leafA]). discriminate.
Defined.

Lemma buildTree_height_witness :
  length [leafA; leafB; leafA]
  <= 2 ^ (length (layers (buildTree paddedPrefix [leafA; leafB; leafA])) - 1).
Proof.
  apply (proj1 (buildTree_height paddedPrefix [leafA; leafB; leafA]
                  ltac:(discriminate))).
Defined.

Lemma root_of_second_layer_witness :
  root (buildTree paddedPrefix (nextLayer paddedPrefix [leafA; leafB; leafA]))
  = root (buildTree paddedPrefix [leafA; leafB; leafA]).
Proof.
  apply (root_of_second_layer paddedPrefix [leafA; leafB; leafA]). discriminate.
Defined.

Lemma root_swap_pair_witness :
  root (buildTree paddedPrefix ([leafA; leafA] ++ leafA :: leafB :: [leafB]))
  = root (buildTree paddedPrefix ([leafA; leafA] ++ leafB :: leafA :: [leafB])).
Proof.
  apply (root_swap_pair paddedPrefix [leafA; leafA] [leafB] leafA leafB). reflexivity.
Defined.

End Merkle.

(* ===================================================================== *)
(** * js/bundle.js *)
(* ===================================================================== *)

Module Bundle.
Import JS.

(** A property that holds a value, holds [null], or was never set (reading
    it gives [undefined]). *)
Inductive Nullable (A : Type) : Type :=
| Undefined
| Null
| Val (a : A).
Arguments Undefined {A}.
Arguments Null {A}.
Arguments Val {A} a.

Inductive Status : Type := draft | in_progress | completed.

Record Signer : Type := mkSigner {
  id : string;
  name : string;
  email : string;
  color : string;
  signed : bool;
  signedAt : Nullable string;
  publicKey : Nullable string;
  signatureImage : Nullable string;
  cryptoSignature : Nullable bytes
}.

(** Coordinates and sizes are JavaScript numbers; integers stand for them. *)
Record Field : Type := mkField {
  f_id : string;
  f_type : string;
  f_signerId : string;
  f_page : Z;
  f_x : Z;
  f_y : Z;
  f_width : Z;
  f_height : Z;
  f_required : bool;
  f_value : Nullable string;
  f_signatureData : Nullable string
}.

Record Document : Type := mkDocument {
  doc_name : string;
  doc_size : Z;
  doc_data : string
}.

Record CompletedDocument : Type := mkCompleted {
  cd_data : string;
  cd_completedAt : string
}.

Record Bundle : Type := mkBundle {
  version : string;
  created : string;
  modified : string;
  document : Document;
  signers : list Signer;
  fields : list Field;
  status : Status;
  completedDocument : Nullable CompletedDocument;
  timestamp : Nullable string
}.

Definition VERSION : string := "1.0".

(** [create]: [pdfName], [pdfSize] and [base64] are the name, the size and
    the base64 text of the file; [createdAt] and [modifiedAt] are the two
    readings [new Date().toISOString()] of the clock, in that order. *)
Definition create (pdfName : string) (pdfSize : Z) (base64 createdAt modifiedAt : string)
  : Bundle :=
  {| version := VERSION;
     created := createdAt;
     modified := modifiedAt;
     document := {| doc_name := pdfName; doc_size := pdfSize; doc_data := base64 |};
     signers := [];
     fields := [];
     status := draft;
     completedDocument := Null;
     timestamp := Null |}.

Definition set_signers (b : Bundle) (l : list Signer) : Bundle :=
  {| version := version b; created := created b; modified := modified b;
     document := document b; signers := l; fields := fields b;
     status := status b; completedDocument := completedDocument b;
     timestamp := timestamp b |}.

Definition set_fields (b : Bundle) (l : list Field) : Bundle :=
  {| version := version b; created := created b; modified := modified b;
     document := document b; signers := signers b; fields := l;
     status := status b; completedDocument := completedDocument b;
     timestamp := timestamp b |}.

Definition set_status (b : Bundle) (st : Status) : Bundle :=
  {| version := version b; created := created b; modified := modified b;
     document := document b; signers := signers b; fields := fields b;
     status := st; completedDocument := completedDocument b;
     timestamp := timestamp b |}.

Definition colors : list string :=
  ["#e63946"; "#457b9d"; "#2a9d8f"; "#e9c46a"; "#9b5de5"; "#f72585"].

(** [addSigner].  [stamp] is the decimal text of [Date.now()] and [suffix]
    is [Math.random().toString(36).substr(2, 5)].  The object literal has no
    [cryptoSignature] member.  Returns the bundle after the push and the new
    signer. *)
Definition addSigner (bundle : Bundle) (name email stamp suffix : string)
  : Bundle * Signer :=
  let colorIndex := length (signers bundle) mod length colors in
  let signer :=
    {| id := ("s" ++ stamp ++ suffix)%string;
       name := name;
       email := trim (toLowerCase email);
       color := nth colorIndex colors EmptyString;
       signed := false;
       signedAt := Null;
       publicKey := Null;
       signatureImage := Null;
       cryptoSignature := Undefined |} in
  (set_signers bundle (signers bundle ++ [signer]), signer).

Definition removeSigner (bundle : Bundle) (signerId : string) : Bundle :=
  let b1 := set_signers bundle
              (filter (fun s => negb (String.eqb (id s) signerId)) (signers bundle)) in
  set_fields b1 (filter (fun f => negb (String.eqb (f_signerId f) signerId)) (fields b1)).

Definition getDefaultWidth (type : string) : Z :=
  if String.eqb type "signature" then 200
  else if String.eqb type "initials" then 80
  else if String.eqb type "date" then 120
  else if String.eqb type "text" then 150
  else 100.

Definition getDefaultHeight (type : string) : Z :=
  if String.eqb type "signature" then 60
  else if String.eqb type "initials" then 40
  else if String.eqb type "date" then 20
  else if String.eqb type "text" then 20
  else 30.

(** The argument of [addField]; a missing [width], [height] or [required]
    is [Undefined]. *)
Record FieldData : Type := mkFieldData {
  fd_type : string;
  fd_signerId : string;
  fd_page : Z;
  fd_x : Z;
  fd_y : Z;
  fd_width : Nullable Z;
  fd_height : Nullable Z;
  fd_required : Nullable bool
}.

(** [v || d] for a number [v]: zero, [null] and [undefined] are falsy. *)
Definition orDefault (v : Nullable Z) (d : Z) : Z :=
  match v with
  | Val z => if Z.eqb z 0 then d else z
  | _ => d
  end.

Definition addField (bundle : Bundle) (fieldData : FieldData) (stamp suffix : string)
  : Bundle * Field :=
  let field :=
    {| f_id := ("f" ++ stamp ++ suffix)%string;
       f_type := fd_type fieldData;
       f_signerId := fd_signerId fieldData;
       f_page := fd_page fieldData;
       f_x := fd_x fieldData;
       f_y := fd_y fieldData;
       f_width := orDefault (fd_width fieldData) (getDefaultWidth (fd_type fieldData));
       f_height := orDefault (fd_height fieldData) (getDefaultHeight (fd_type fieldData));
       f_required := match fd_required fieldData with Val false => false | _ => true end;
       f_value := Null;
       f_signatureData := Null |} in
  (set_fields bundle (fields bundle ++ [field]), field).

Definition removeField (bundle : Bundle) (fieldId : string) : Bundle :=
  set_fields bundle (filter (fun f => negb (String.eqb (f_id f) fieldId)) (fields bundle)).

(** The [updates] argument of [updateField]: the members it carries. *)
Record FieldUpdates : Type := mkFieldUpdates {
  u_id : option string;
  u_type : option string;
  u_signerId : option string;
  u_page : option Z;
  u_x : option Z;
  u_y : option Z;
  u_width : option Z;
  u_height : option Z;
  u_required : option bool;
  u_value : option (Nullable string);
  u_signatureData : option (Nullable string)
}.

Definition orKeep {A : Type} (u : option A) (old : A) : A :=
  match u with Some a => a | None => old end.

(** [Object.assign(field, updates)]. *)
Definition assignField (field : Field) (updates : FieldUpdates) : Field :=
  {| f_id := orKeep (u_id updates) (f_id field);
     f_type := orKeep (u_type updates) (f_type field);
     f_signerId := orKeep (u_signerId updates) (f_signerId field);
     f_page := orKeep (u_page updates) (f_page field);
     f_x := orKeep (u_x updates) (f_x field);
     f_y := orKeep (u_y updates) (f_y field);
     f_width := orKeep (u_width updates) (f_width field);
     f_height := orKeep (u_height updates) (f_height field);
     f_required := orKeep (u_required updates) (f_required field);
     f_value := orKeep (u_value updates) (f_value field);
     f_signatureData := orKeep (u_signatureData updates) (f_signatureData field) |}.

(** Applies [f] to the first element that satisfies [p], the element
    [Array.prototype.find] returns. *)
Fixpoint updateFirst {A : Type} (p : A -> bool) (f : A -> A) (l : list A) : list A :=
  match l with
  | [] => []
  | x :: r => if p x then f x :: r else x :: updateFirst p f r
  end.

Definition updateField (bundle : Bundle) (fieldId : string) (updates : FieldUpdates)
  : Bundle :=
  set_fields bundle
    (updateFirst (fun f => String.eqb (f_id f) fieldId)
                 (fun f => assignField f updates) (fields bundle)).

Definition getFieldsForSigner (bundle : Bundle) (signerId : string) : list Field :=
  filter (fun f => String.eqb (f_signerId f) signerId) (fields bundle).

Definition hasValue (f : Field) : bool :=
  match f_value f with Null => false | _ => true end.

(** [f.value !== null] for every required field. *)
Definition isComplete (bundle : Bundle) : bool :=
  forallb hasValue (filter f_required (fields bundle)).

Definition getPendingSigners (bundle : Bundle) : list Signer :=
  filter (fun s => negb (signed s)) (signers bundle).

(** The value [updateStatus] assigns to [bundle.status]. *)
Definition computeStatus (l : list Signer) : Status :=
  if length l =? 0 then draft
  else if forallb signed l then completed
  else if existsb signed l then in_progress
  else draft.

Definition updateStatus (bundle : Bundle) : Bundle :=
  set_status bundle (computeStatus (signers bundle)).

(** The [signatureData] argument of [markSignerSigned]. *)
Record SignatureData : Type := mkSignatureData {
  sd_publicKey : Nullable string;
  sd_signatureImage : Nullable string;
  sd_cryptoSignature : Nullable bytes
}.

Definition signSigner (signatureData : SignatureData) (now : string) (s : Signer) : Signer :=
  {| id := id s; name := name s; email := email s; color := color s;
     signed := true;
     signedAt := Val now;
     publicKey := sd_publicKey signatureData;
     signatureImage := sd_signatureImage signatureData;
     cryptoSignature := sd_cryptoSignature signatureData |}.

(** [markSignerSigned]; [now] is [new Date().toISOString()]. *)
Definition markSignerSigned (bundle : Bundle) (signerId : string)
  (signatureData : SignatureData) (now : string) : Bundle :=
  let b1 := set_signers bundle
              (updateFirst (fun s => String.eqb (id s) signerId)
                           (signSigner signatureData now) (signers bundle)) in
  updateStatus b1.

(** ** The completion status *)

(** The status the transition function prescribes for a list of signers:
    [draft] when nobody has signed, [completed] when there are signers and
    all have signed, [in_progress] when some but not all have. *)
Definition statusFor (l : list Signer) (st : Status) : Prop :=
  (l = [] \/ Forall (fun s => signed s = false) l -> st = draft) /\
  (l <> [] /\ Forall (fun s => signed s = true) l -> st = completed) /\
  (Exists (fun s => signed s = true) l /\ Exists (fun s => signed s = false) l ->
   st = in_progress).

Lemma forallb_signed (l : list Signer) :
  forallb signed l = true <-> Forall (fun s => signed s = true) l.
Proof. rewrite forallb_forall, Forall_forall. reflexivity. Qed.

Lemma existsb_signed (l : list Signer) :
  existsb signed l = true <-> Exists (fun s => signed s = true) l.
Proof. rewrite existsb_exists, Exists_exists. reflexivity. Qed.

Lemma none_signed (l : list Signer) :
  Forall (fun s => signed s = false) l <-> existsb signed l = false.
Proof.
  induction l as [|s l IH]; simpl.
  - split; auto.
  - rewrite orb_false_iff, <- IH. split.
    + intro H. inversion H; subst. auto.
    + intros [? ?]. now constructor.
Qed.

Lemma some_unsigned (l : list Signer) :
  Exists (fun s => signed s = false) l <-> forallb signed l = false.
Proof.
  induction l as [|s l IH]; simpl.
  - split; [intro H; inversion H | discriminate].
  - rewrite andb_false_iff, <- IH, Exists_cons. reflexivity.
Qed.

Lemma computeStatus_statusFor (l : list Signer) : statusFor l (computeStatus l).
Proof.
  unfold statusFor, computeStatus.
  destruct l as [|s l].
  { simpl. split; [auto|]. split; intros [H _]; [congruence | inversion H]. }
  change (length (s :: l) =? 0) with false. cbv iota.
  destruct (forallb signed (s :: l)) eqn:Hall, (existsb signed (s :: l)) eqn:Hsome;
    try (simpl in Hall, Hsome; destruct (signed s); discriminate);
    repeat split; try reflexivity;
    try (intros [E | Hn]; [discriminate E | apply none_signed in Hn; congruence]);
    try (intros [_ Ha]; apply forallb_signed in Ha; congruence);
    try (intros [Hs Hu]; apply existsb_signed in Hs; apply some_unsigned in Hu;
         congruence).
Qed.

(** C6.  After [updateStatus] the status is the one the transition function
    prescribes for the signers of the bundle, which [updateStatus] leaves as
    they are; [markSignerSigned] ends with the same recomputation, so the
    bundle it returns has the status prescribed for its own signers. *)
Theorem updateStatus_transition (bundle : Bundle) :
  statusFor (signers bundle) (status (updateStatus bundle)) /\
  signers (updateStatus bundle) = signers bundle /\
  forall (signerId : string) (signatureData : SignatureData) (now : string),
    statusFor (signers (markSignerSigned bundle signerId signatureData now))
              (status (markSignerSigned bundle signerId signatureData now)).
Proof.
  split; [apply computeStatus_statusFor|]. split; [reflexivity|].
  intros signerId signatureData now. apply computeStatus_statusFor.
Qed.

(** ** States reached through the bundle operations *)

(** [reachable snapshot b]: [b] is obtained from a created bundle by
    [addSigner], [removeSigner], [markSignerSigned], [addField],
    [removeField] and [updateField]; [snapshot] is the signer list as it
    stood at creation or right after the latest [markSignerSigned]. *)
Inductive reachable : list Signer -> Bundle -> Prop :=
| reach_create pdfName pdfSize base64 createdAt modifiedAt :
    reachable [] (create pdfName pdfSize base64 createdAt modifiedAt)
| reach_addSigner snapshot b name email stamp suffix :
    reachable snapshot b ->
    reachable snapshot (fst (addSigner b name email stamp suffix))
| reach_removeSigner snapshot b signerId :
    reachable snapshot b ->
    reachable snapshot (removeSigner b signerId)
| reach_markSignerSigned snapshot b signerId signatureData now :
    reachable snapshot b ->
    reachable (signers (markSignerSigned b signerId signatureData now))
              (markSignerSigned b signerId signatureData now)
| reach_addField snapshot b fieldData stamp suffix :
    reachable snapshot b ->
    reachable snapshot (fst (addField b fieldData stamp suffix))
| reach_removeField snapshot b fieldId :
    reachable snapshot b ->
    reachable snapshot (removeField b fieldId)
| reach_updateField snapshot b fieldId updates :
    reachable snapshot b ->
    reachable snapshot (updateField b fieldId updates).

(** C7 (as amended).  In every reachable bundle the status is the one the
    transition function prescribes for the signer list as it stood at
    creation or right after the latest [markSignerSigned]; [addSigner],
    [removeSigner], [addField], [removeField] and [updateField] do not
    change the status. *)
Theorem status_tracks_latest_signing (snapshot : list Signer) (b : Bundle) :
  reachable snapshot b ->
  statusFor snapshot (status b) /\
  (forall name email stamp suffix,
      status (fst (addSigner b name email stamp suffix)) = status b) /\
  (forall signerId, status (removeSigner b signerId) = status b) /\
  (forall fieldData stamp suffix,
      status (fst (addField b fieldData stamp suffix)) = status b) /\
  (forall fieldId, status (removeField b fieldId) = status b) /\
  (forall fieldId updates, status (updateField b fieldId updates) = status b).
Proof.
  intro Hreach. split; [|repeat split; reflexivity].
  induction Hreach; try assumption.
  - apply (computeStatus_statusFor []).
  - apply computeStatus_statusFor.
Qed.

(** What a call can throw. *)
Inductive Exception : Type :=
| SyntaxError
| TypeError
| Error (message : string).

Section Load.

(** [JSON.parse]; [None] when it throws a [SyntaxError]. *)
Variable JSON_parse : string -> option json.

(** [load]; [text] is the content of the file.  [inl] is a thrown
    exception, [inr] the returned bundle.  Reading [bundle.version] of
    [null] throws a [TypeError]. *)
Definition load (text : string) : Exception + json :=
  match JSON_parse text with
  | None => inl SyntaxError
  | Some bundle =>
      match bundle with
      | JNull => inl TypeError
      | _ =>
          if negb (toBoolean (getProp bundle "version"))
          then inl (Error "Invalid bundle: missing version")
          else
            match getProp bundle "document" with
            | Some doc =>
                if negb (toBoolean (Some doc)) then inl (Error "Invalid bundle: missing document")
                else if negb (toBoolean (getProp doc "data"))
                then inl (Error "Invalid bundle: missing document")
                else inr bundle
            | None => inl (Error "Invalid bundle: missing document")
            end
      end
  end.

(** The values ToBoolean maps to [false]: a missing member, [null],
    [false], zero and the empty string. *)
Definition falsy (v : option json) : Prop :=
  v = None \/ v = Some JNull \/ v = Some (JBool false) \/
  v = Some (JNum 0) \/ v = Some (JStr EmptyString).

Lemma toBoolean_falsy (v : option json) : toBoolean v = false <-> falsy v.
Proof.
  unfold falsy. split.
  - destruct v as [[| [] | z | s | |]|]; simpl; intro H; try discriminate; auto.
    + apply negb_false_iff, Z.eqb_eq in H. subst. auto 10.
    + apply negb_false_iff, String.eqb_eq in H. subst. auto 10.
  - intros [-> | [-> | [-> | [-> | ->]]]]; reflexivity.
Qed.

(** The parsed contents [load] refuses. *)
Definition rejected (bundle : json) : Prop :=
  bundle = JNull \/
  falsy (getProp bundle "version") \/
  falsy (getProp bundle "document") \/
  exists doc, getProp bundle "document" = Some doc /\ falsy (getProp doc "data").

Lemma load_cases (text : string) (bundle : json) :
  JSON_parse text = Some bundle ->
  (rejected bundle /\ exists e, load text = inl e) \/
  (~ rejected bundle /\ load text = inr bundle).
Proof.
  intro Hparse. unfold load. rewrite Hparse.
  destruct (toBoolean (getProp bundle "version")) eqn:Hv.
  2:{ left. split.
      - right; left. now apply toBoolean_falsy.
      - destruct bundle; simpl; eauto. }
  destruct bundle as [| b | z | s | items | members]; try discriminate Hv.
  cbn [negb]. cbv iota.
  destruct (getProp (JObj members) "document") as [doc|] eqn:Hd.
  2:{ left. split; [|eauto]. right; right; left. rewrite Hd. left. reflexivity. }
  destruct (toBoolean (Some doc)) eqn:Hdoc.
  2:{ left. split; [|simpl; eauto]. right; right; left. rewrite Hd.
      now apply toBoolean_falsy. }
  destruct (toBoolean (getProp doc "data")) eqn:Hdata.
  2:{ left. split; [|simpl; eauto]. right; right; right. exists doc. split; auto.
      now apply toBoolean_falsy. }
  right. split; [|reflexivity].
  intros [H | [H | [H | (doc' & Hd' & H)]]].
  - discriminate.
  - apply toBoolean_falsy in H. congruence.
  - rewrite Hd in H. apply toBoolean_falsy in H. congruence.
  - rewrite Hd in Hd'. injection Hd' as <-. apply toBoolean_falsy in H. congruence.
Qed.

(** C8 (as amended).  [load] throws exactly when the parsed content is
    [null], or its [version], its [document] or the [data] of its document
    is missing or falsy ([null], [false], zero or the empty string);
    any other parsed content is returned as it is. *)
Theorem load_validation (text : string) (bundle : json) :
  JSON_parse text = Some bundle ->
  ((exists e, load text = inl e) <-> rejected bundle) /\
  (load text = inr bundle <-> ~ rejected bundle) /\
  (forall r, load text = inr r -> r = bundle).
Proof.
  intro Hparse.
  destruct (load_cases text bundle Hparse) as [[Hrej [e He]] | [Hok Hload]].
  - split; [|split].
    + split; eauto.
    + split; [congruence | contradiction].
    + congruence.
  - split; [|split].
    + split; [intros [e He]; congruence | contradiction].
    + split; auto.
    + congruence.
Qed.

End Load.

(** ** Concrete bundles *)

(** A bundle file whose [version] member is the empty string. *)
Definition emptyVersionBundle : json :=
  JObj [("version", JStr EmptyString);
        ("document", JObj [("name", JStr "a.pdf"); ("size", JNum 6);
                           ("data", JStr "JVBERi0=")])].

(** The bundle [create] makes for an empty file: its [data] is the empty
    base64 text. *)
Definition emptyFileBundle : json :=
  JObj [("version", JStr "1.0");
        ("document", JObj [("name", JStr "empty.pdf"); ("size", JNum 0);
                           ("data", JStr EmptyString)])].

Definition wellFormedBundle : json :=
  JObj [("version", JStr "1.0");
        ("document", JObj [("name", JStr "a.pdf"); ("size", JNum 6);
                           ("data", JStr "JVBERi0=")]);
        ("signers", JArr []); ("fields", JArr [])].

Lemma load_validation_witness :
  load (fun _ => Some wellFormedBundle) "{}" = inr wellFormedBundle.
Proof.
  apply (proj2 (proj1 (proj2
           (load_validation (fun _ => Some wellFormedBundle) "{}" wellFormedBundle
              eq_refl)))).
  intros [H | [H | [H | (doc & Hd & H)]]].
  - discriminate.
  - apply toBoolean_falsy in H. discriminate.
  - apply toBoolean_falsy in H. discriminate.
  - injection Hd as <-. apply toBoolean_falsy in H. discriminate.
Defined.

(** C8, counterexample.  Both bundles carry a [version] member and a
    [document] with a [data] member, and [load] throws on both. *)
Lemma load_rejects_present_members :
  (getProp emptyVersionBundle "version" <> None /\
   exists doc, getProp emptyVersionBundle "document" = Some doc /\
               getProp doc "data" <> None) /\
  (getProp emptyFileBundle "version" <> None /\
   exists doc, getProp emptyFileBundle "document" = Some doc /\
               getProp doc "data" <> None) /\
  (forall JSON_parse text,
      JSON_parse text = Some emptyVersionBundle ->
      load JSON_parse text = inl (Error "Invalid bundle: missing version")) /\
  (forall JSON_parse text,
      JSON_parse text = Some emptyFileBundle ->
      load JSON_parse text = inl (Error "Invalid bundle: missing document")).
Proof.
  repeat split; try discriminate.
  - eexists. split; [reflexivity | discriminate].
  - eexists. split; [reflexivity | discriminate].
  - intros JSON_parse text H. unfold load. now rewrite H.
  - intros JSON_parse text H. unfold load. now rewrite H.
Qed.

Definition sampleSignature : SignatureData :=
  {| sd_publicKey := Val "ed25519:00";
     sd_signatureImage := Val "data:image/png;base64,AA==";
     sd_cryptoSignature := Val [x01; x02] |}.

Definition sampleCreated : Bundle :=
  create "contract.pdf" 6 "JVBERi0=" "2024-05-01T10:00:00.000Z" "2024-05-01T10:00:00.000Z".

Definition sampleTwoSigners : Bundle :=
  fst (addSigner
         (fst (addSigner sampleCreated "Ann" " Ann@Example.org" "1714557600000" "k3x9q"))
         "Bob" "bob@example.org" "1714557600001" "p7w2m").

(** Ann signs. *)
Definition sampleSigned : Bundle :=
  markSignerSigned sampleTwoSigners "s1714557600000k3x9q" sampleSignature
    "2024-05-01T10:05:00.000Z".

(** Bob, who has not signed, is removed. *)
Definition sampleAfterRemoval : Bundle :=
  removeSigner sampleSigned "s1714557600001p7w2m".

(** Ann signs a one-signer bundle, then Bob is added. *)
Definition sampleAfterAddition : Bundle :=
  fst (addSigner
         (markSignerSigned
            (fst (addSigner sampleCreated "Ann" " Ann@Example.org" "1714557600000" "k3x9q"))
            "s1714557600000k3x9q" sampleSignature "2024-05-01T10:05:00.000Z")
         "Bob" "bob@example.org" "1714557600001" "p7w2m").

Lemma sampleAfterRemoval_reachable :
  reachable (signers sampleSigned) sampleAfterRemoval.
Proof.
  unfold sampleAfterRemoval, sampleSigned, sampleTwoSigners, sampleCreated.
  apply reach_removeSigner.
  apply reach_markSignerSigned with (snapshot := []).
  do 2 apply reach_addSigner. apply reach_create.
Qed.

Lemma sampleAfterAddition_reachable :
  exists snapshot, reachable snapshot sampleAfterAddition.
Proof.
  eexists. unfold sampleAfterAddition, sampleCreated.
  apply reach_addSigner.
  apply reach_markSignerSigned with (snapshot := []).
  apply reach_addSigner. apply reach_create.
Qed.

Lemma updateStatus_transition_witness : status sampleSigned = in_progress.
Proof.
  apply (proj2 (proj2 (proj2 (proj2 (updateStatus_transition sampleTwoSigners))
                         "s1714557600000k3x9q" sampleSignature
                         "2024-05-01T10:05:00.000Z"))).
  split.
  - apply Exists_cons_hd. reflexivity.
  - apply Exists_cons_tl, Exists_cons_hd. reflexivity.
Defined.

Lemma status_tracks_latest_signing_witness :
  statusFor (signers sampleSigned) (status sampleAfterRemoval).
Proof.
  apply (proj1 (status_tracks_latest_signing (signers sampleSigned) sampleAfterRemoval
                  sampleAfterRemoval_reachable)).
Defined.

(** C7, counterexample.  After Ann has signed and the unsigned Bob is
    removed, every remaining signer has signed and the status is still
    [in_progress]; after Ann has signed alone and Bob is added, one signer has
    not signed and the status is still [completed].  Both bundles are
    reachable, and neither has the status prescribed for its signers. *)
Lemma removeSigner_leaves_status_stale :
  ((exists snapshot, reachable snapshot sampleAfterRemoval) /\
   map signed (signers sampleAfterRemoval) = [true] /\
   status sampleAfterRemoval = in_progress /\
   ~ statusFor (signers sampleAfterRemoval) (status sampleAfterRemoval)) /\
  ((exists snapshot, reachable snapshot sampleAfterAddition) /\
   map signed (signers sampleAfterAddition) = [true; false] /\
   status sampleAfterAddition = completed /\
   ~ statusFor (signers sampleAfterAddition) (status sampleAfterAddition)).
Proof.
  split; (split; [|split; [reflexivity | split; [reflexivity|]]]).
  - eexists. apply sampleAfterRemoval_reachable.
  - intros (_ & Hall & _).
    assert (H : status sampleAfterRemoval = completed).
    { apply Hall. split; [discriminate | repeat constructor]. }
    discriminate H.
  - apply sampleAfterAddition_reachable.
  - intros (_ & _ & Hsome).
    assert (H : status sampleAfterAddition = in_progress).
    { apply Hsome. split.
      - apply Exists_cons_hd. reflexivity.
      - apply Exists_cons_tl, Exists_cons_hd. reflexivity. }
    discriminate H.
Qed.

(** C9 (as amended).  [addSigner] appends one signer and returns it: its
    name is the given name, its email the lower-cased, trimmed input, its
    [signed] is [false], its [signedAt], [publicKey] and [signatureImage] are
    [null], and its [cryptoSignature] is not set; the signers already there,
    the fields and the rest of the bundle are left as they were. *)
Theorem addSigner_appends (bundle : Bundle) (name email stamp suffix : string) :
  let result := addSigner bundle name email stamp suffix in
  signers (fst result) = signers bundle ++ [snd result] /\
  Bundle.name (snd result) = name /\
  Bundle.email (snd result) = trim (toLowerCase email) /\
  signed (snd result) = false /\
  signedAt (snd result) = Null /\
  publicKey (snd result) = Null /\
  signatureImage (snd result) = Null /\
  cryptoSignature (snd result) = Undefined /\
  fields (fst result) = fields bundle /\
  status (fst result) = status bundle /\
  document (fst result) = document bundle /\
  version (fst result) = version bundle.
Proof. repeat split. Qed.

(** C9, counterexample.  The signer [addSigner] returns has no
    [cryptoSignature]: reading it gives [undefined], not [null]. *)
Lemma addSigner_cryptoSignature_unset :
  cryptoSignature
    (snd (addSigner sampleCreated "Ann" " Ann@Example.org" "1714557600000" "k3x9q"))
  = Undefined /\
  @Undefined bytes <> Null.
Proof. split; [reflexivity | discriminate]. Qed.

(** ** Further functions of js/bundle.js *)

Definition MIME_TYPE : string := "application/json".
Definition EXTENSION : string := ".ots-sign".

(** ToBoolean of a field value: [null], [undefined] and the empty string
    are falsy. *)
Definition truthyValue (v : Nullable string) : bool :=
  match v with
  | Val s => negb (String.eqb s EmptyString)
  | _ => false
  end.

Definition getUnsignedFields (bundle : Bundle) (signerId : string) : list Field :=
  filter (fun f => String.eqb (f_signerId f) signerId && negb (truthyValue (f_value f)))
         (fields bundle).

Definition isSignerComplete (bundle : Bundle) (signerId : string) : bool :=
  let fields := getFieldsForSigner bundle signerId in
  (0 <? length fields) && forallb hasValue (filter f_required fields).

(** [setCompletedPdf]; [base64] is [arrayBufferToBase64(pdfBytes)] and [now]
    is [new Date().toISOString()]. *)
Definition setCompletedPdf (bundle : Bundle) (base64 now : string) : Bundle :=
  {| version := version bundle; created := created bundle; modified := modified bundle;
     document := document bundle; signers := signers bundle; fields := fields bundle;
     status := status bundle;
     completedDocument := Val {| cd_data := base64; cd_completedAt := now |};
     timestamp := timestamp bundle |}.

(** The match of [/\.pdf$/i]: the whole text is a dot followed by the
    letters p, d, f in either case. *)
Definition isPdfSuffix (s : string) : bool :=
  match s with
  | String a (String b (String c (String d EmptyString))) =>
      Ascii.eqb a "." && (Ascii.eqb b "p" || Ascii.eqb b "P")
      && (Ascii.eqb c "d" || Ascii.eqb c "D") && (Ascii.eqb d "f" || Ascii.eqb d "F")
  | _ => false
  end.

(** [name.replace(/\.pdf$/i, '')]. *)
Fixpoint stripPdfSuffix (name : string) : string :=
  match name with
  | EmptyString => EmptyString
  | String c r => if isPdfSuffix name then EmptyString else String c (stripPdfSuffix r)
  end.

Definition getDefaultFilename (bundle : Bundle) : string :=
  let baseName := stripPdfSuffix (doc_name (document bundle)) in
  (baseName ++ EXTENSION)%string.

(** [String.prototype.endsWith]. *)
Fixpoint endsWith (s suffix : string) : bool :=
  String.eqb s suffix ||
  match s with
  | EmptyString => false
  | String _ r => endsWith r suffix
  end.

(** [detectFileType] on the [name] and the [type] of the file. *)
Definition detectFileType (fileName fileType : string) : string :=
  if endsWith fileName ".pdf" || String.eqb fileType "application/pdf" then "pdf"
  else if endsWith fileName EXTENSION || String.eqb fileType "application/json" then "bundle"
  else "unknown".

(** ** Removing and updating *)

Lemma set_fields_same (b : Bundle) : set_fields b (fields b) = b.
Proof. now destruct b. Qed.

Lemma filter_all (A : Type) (p : A -> bool) (l : list A) :
  (forall x, In x l -> p x = true) -> filter p l = l.
Proof.
  induction l as [|x l IH]; intro H; simpl; [reflexivity|].
  rewrite (H x (or_introl eq_refl)). f_equal. apply IH. intros y Hy. apply H. now right.
Qed.

Lemma updateFirst_none (A : Type) (p : A -> bool) (f : A -> A) (l : list A) :
  (forall x, In x l -> p x = false) -> updateFirst p f l = l.
Proof.
  induction l as [|x l IH]; intro H; simpl; [reflexivity|].
  rewrite (H x (or_introl eq_refl)). f_equal. apply IH. intros y Hy. apply H. now right.
Qed.

Lemma updateFirst_length (A : Type) (p : A -> bool) (f : A -> A) (l : list A) :
  length (updateFirst p f l) = length l.
Proof.
  induction l as [|x l IH]; simpl; [reflexivity|].
  destruct (p x); simpl; congruence.
Qed.

Lemma updateFirst_keeps (A : Type) (p : A -> bool) (f : A -> A) (l : list A) (x : A) :
  In x l -> p x = false -> In x (updateFirst p f l).
Proof.
  induction l as [|y l IH]; intros Hin Hp; [contradiction|].
  simpl. destruct Hin as [-> | Hin].
  - rewrite Hp. now left.
  - destruct (p y); right; auto.
Qed.

(** X11.  [removeSigner] removes every signer with the given id and every
    field assigned to that id, and keeps all the others; if every field was
    assigned to a signer of the bundle before, the same holds afterwards. *)
Theorem removeSigner_cascade (bundle : Bundle) (signerId : string) :
  (forall s, In s (signers (removeSigner bundle signerId))
             <-> In s (signers bundle) /\ id s <> signerId) /\
  (forall f, In f (fields (removeSigner bundle signerId))
             <-> In f (fields bundle) /\ f_signerId f <> signerId) /\
  ((forall f, In f (fields bundle) ->
              exists s, In s (signers bundle) /\ id s = f_signerId f) ->
   forall f, In f (fields (removeSigner bundle signerId)) ->
             exists s, In s (signers (removeSigner bundle signerId)) /\ id s = f_signerId f).
Proof.
  assert (Hs : forall s, In s (signers (removeSigner bundle signerId))
                         <-> In s (signers bundle) /\ id s <> signerId).
  { intro s. unfold removeSigner. cbn [signers set_fields set_signers].
    rewrite filter_In, negb_true_iff, String.eqb_neq. reflexivity. }
  assert (Hf : forall f, In f (fields (removeSigner bundle signerId))
                         <-> In f (fields bundle) /\ f_signerId f <> signerId).
  { intro f. unfold removeSigner. cbn [fields set_fields set_signers].
    rewrite filter_In, negb_true_iff, String.eqb_neq. reflexivity. }
  split; [exact Hs|]. split; [exact Hf|].
  intros Hint f Hin. apply Hf in Hin. destruct Hin as [Hin Hne].
  destruct (Hint f Hin) as (s & Hsin & Hid).
  exists s. split; [|exact Hid]. apply Hs. split; [exact Hsin | congruence].
Qed.

(** X12.  [updateField] and [removeField] on an id that no field carries
    return the bundle as it is.  [updateField] keeps the number of fields
    and every field with another id; [removeField] leaves no field with the
    id and keeps every other field. *)
Theorem updateField_removeField_frame (bundle : Bundle) (fieldId : string)
  (updates : FieldUpdates) :
  ((forall f, In f (fields bundle) -> f_id f <> fieldId) ->
   updateField bundle fieldId updates = bundle /\ removeField bundle fieldId = bundle) /\
  length (fields (updateField bundle fieldId updates)) = length (fields bundle) /\
  (forall f, In f (fields bundle) -> f_id f <> fieldId ->
             In f (fields (updateField bundle fieldId updates))) /\
  (forall f, In f (fields (removeField bundle fieldId))
             <-> In f (fields bundle) /\ f_id f <> fieldId).
Proof.
  split; [|split; [|split]].
  - intro Hnone. unfold updateField, removeField. split.
    + rewrite updateFirst_none; [apply set_fields_same|].
      intros f Hf. apply String.eqb_neq. now apply Hnone.
    + rewrite filter_all; [apply set_fields_same|].
      intros f Hf. apply negb_true_iff, String.eqb_neq. now apply Hnone.
  - apply updateFirst_length.
  - intros f Hin Hne. apply updateFirst_keeps; [exact Hin|]. now apply String.eqb_neq.
  - intro f. unfold removeField. cbn [fields set_fields].
    rewrite filter_In, negb_true_iff, String.eqb_neq. reflexivity.
Qed.


(** ** Signing *)

(** The signer list after [markSignerSigned]. *)
Definition markList (signerId : string) (signatureData : SignatureData) (now : string)
  (l : list Signer) : list Signer :=
  updateFirst (fun s => String.eqb (id s) signerId) (signSigner signatureData now) l.

Lemma markSignerSigned_signers bundle signerId signatureData now :
  signers (markSignerSigned bundle signerId signatureData now)
  = markList signerId signatureData now (signers bundle).
Proof. reflexivity. Qed.

Lemma markList_ids signerId signatureData now (l : list Signer) :
  map id (markList signerId signatureData now l) = map id l.
Proof.
  unfold markList. induction l as [|s l IH]; simpl; [reflexivity|].
  destruct (String.eqb (id s) signerId); simpl; congruence.
Qed.

(** Every signer of the new list is a signer of the old list or the marked
    copy of one with the given id. *)
Lemma markList_elements signerId signatureData now (l : list Signer) (s' : Signer) :
  In s' (markList signerId signatureData now l) ->
  In s' l \/ exists s, In s l /\ id s = signerId /\ s' = signSigner signatureData now s.
Proof.
  unfold markList. induction l as [|s l IH]; simpl; [contradiction|].
  destruct (String.eqb (id s) signerId) eqn:E; simpl.
  - intros [<- | Hin]; [|auto].
    right. exists s. apply String.eqb_eq in E. auto.
  - intros [<- | Hin]; [auto|].
    destruct (IH Hin) as [? | (s0 & ? & ? & ?)]; [auto|].
    right. exists s0. auto.
Qed.

Lemma markList_marks signerId signatureData now (l : list Signer) :
  NoDup (map id l) ->
  forall s', In s' (markList signerId signatureData now l) ->
             id s' = signerId -> signed s' = true.
Proof.
  unfold markList. induction l as [|s l IH]; intros Hnd s' Hin Hid; [contradiction|].
  simpl in Hin, Hnd. inversion Hnd as [|? ? Hnotin Hnd']; subst.
  destruct (String.eqb (id s) (id s')) eqn:E.
  - destruct Hin as [<- | Hin]; [reflexivity|].
    exfalso. apply Hnotin. apply String.eqb_eq in E. rewrite E.
    apply in_map. exact Hin.
  - destruct Hin as [<- | Hin]; [rewrite String.eqb_refl in E; discriminate|].
    now apply IH.
Qed.

Lemma markList_exists signerId signatureData now (l : list Signer) :
  (exists s, In s l /\ id s = signerId) ->
  existsb signed (markList signerId signatureData now l) = true.
Proof.
  unfold markList. induction l as [|s l IH]; intros (s0 & Hin & Hid); [contradiction|].
  simpl. destruct (String.eqb (id s) signerId) eqn:E; [reflexivity|].
  simpl. destruct Hin as [-> | Hin].
  - apply String.eqb_neq in E. contradiction.
  - rewrite IH by eauto. apply orb_true_r.
Qed.

Lemma updateFirst_image (A : Type) (p : A -> bool) (f : A -> A) (l : list A) (x : A) :
  In x l -> In x (updateFirst p f l) \/ In (f x) (updateFirst p f l).
Proof.
  induction l as [|y l IH]; intro Hin; [contradiction|].
  simpl. destruct Hin as [-> | Hin].
  - destruct (p x); [right | left]; now left.
  - destruct (p y); [left; now right|].
    destruct (IH Hin); [left | right]; now right.
Qed.

(** X13.  [markSignerSigned] keeps the ids and the order of the signers,
    the fields and the document.  With an id no signer carries it changes no
    signer; with the id of a signer the status it leaves is never [draft];
    a signer that had signed before the call has signed after it. *)
Theorem markSignerSigned_effects (bundle : Bundle) (signerId : string)
  (signatureData : SignatureData) (now : string) :
  map id (signers (markSignerSigned bundle signerId signatureData now))
  = map id (signers bundle) /\
  fields (markSignerSigned bundle signerId signatureData now) = fields bundle /\
  document (markSignerSigned bundle signerId signatureData now) = document bundle /\
  ((forall s, In s (signers bundle) -> id s <> signerId) ->
   signers (markSignerSigned bundle signerId signatureData now) = signers bundle) /\
  ((exists s, In s (signers bundle) /\ id s = signerId) ->
   status (markSignerSigned bundle signerId signatureData now) <> draft) /\
  (forall s, In s (signers bundle) -> signed s = true ->
             exists s', In s' (signers (markSignerSigned bundle signerId signatureData now))
                        /\ id s' = id s /\ signed s' = true).
Proof.
  rewrite markSignerSigned_signers.
  split; [apply markList_ids|]. split; [reflexivity|]. split; [reflexivity|].
  split; [|split].
  - intro Hnone. apply updateFirst_none.
    intros s Hs. apply String.eqb_neq. now apply Hnone.
  - intro Hex. unfold markSignerSigned, updateStatus. cbn [status set_status signers set_signers].
    fold (markList signerId signatureData now (signers bundle)).
    pose proof (markList_exists signerId signatureData now _ Hex) as Hsome.
    unfold computeStatus. rewrite Hsome.
    destruct (markList signerId signatureData now (signers bundle)); [discriminate Hsome|].
    cbn [length Nat.eqb]. destruct (forallb signed (s :: l)); discriminate.
  - intros s Hin Hsigned.
    destruct (updateFirst_image _ (fun s => String.eqb (id s) signerId)
                (signSigner signatureData now) _ s Hin) as [H | H].
    + exists s. auto.
    + exists (signSigner signatureData now s). auto.
Qed.

Lemma updateFirst_twice (A : Type) (p : A -> bool) (f g : A -> A) (l : list A) :
  (forall x, p x = true -> p (g x) = true) ->
  updateFirst p f (updateFirst p g l) = updateFirst p (fun x => f (g x)) l.
Proof.
  intro Hp. induction l as [|x l IH]; simpl; [reflexivity|].
  destruct (p x) eqn:E; simpl.
  - now rewrite (Hp x E).
  - rewrite E. now f_equal.
Qed.

Lemma find_updateFirst (A : Type) (p : A -> bool) (f : A -> A) (l : list A) (x : A) :
  find p l = Some x -> p (f x) = true -> find p (updateFirst p f l) = Some (f x).
Proof.
  intros Hfind Hp. induction l as [|y l IH]; [discriminate|].
  simpl in *. destruct (p y) eqn:E.
  - injection Hfind as ->. simpl. now rewrite Hp.
  - simpl. rewrite E. now apply IH.
Qed.

(** X14.  [markSignerSigned] does not check whether the signer has signed
    already.  For the signer [find] returns for the id, a first call records
    the time of the call and the key, image and signature handed to it; a
    second call for the same id overwrites all of them with its own, with
    nothing of the first call left, and the bundle is the one a single call
    with the later data gives. *)
Theorem markSignerSigned_overwrites (bundle : Bundle) (signerId : string)
  (first second : SignatureData) (t1 t2 : string) :
  markSignerSigned (markSignerSigned bundle signerId first t1) signerId second t2
  = markSignerSigned bundle signerId second t2 /\
  forall s,
    find (fun s => String.eqb (id s) signerId) (signers bundle) = Some s ->
    find (fun s => String.eqb (id s) signerId)
         (signers (markSignerSigned bundle signerId first t1))
    = Some {| id := id s; name := name s; email := email s; color := color s;
              signed := true;
              signedAt := Val t1;
              publicKey := sd_publicKey first;
              signatureImage := sd_signatureImage first;
              cryptoSignature := sd_cryptoSignature first |} /\
    find (fun s => String.eqb (id s) signerId)
         (signers (markSignerSigned (markSignerSigned bundle signerId first t1)
                     signerId second t2))
    = Some {| id := id s; name := name s; email := email s; color := color s;
              signed := true;
              signedAt := Val t2;
              publicKey := sd_publicKey second;
              signatureImage := sd_signatureImage second;
              cryptoSignature := sd_cryptoSignature second |}.
Proof.
  assert (Hsame : markSignerSigned (markSignerSigned bundle signerId first t1)
                    signerId second t2
                  = markSignerSigned bundle signerId second t2).
  { unfold markSignerSigned, updateStatus.
    cbn [signers set_signers set_status version created modified document fields status
         completedDocument timestamp].
    rewrite updateFirst_twice by (intros x H; exact H).
    reflexivity. }
  split; [exact Hsame|].
  intros s Hfind.
  assert (Hid : String.eqb (id s) signerId = true).
  { apply find_some in Hfind. apply Hfind. }
  rewrite Hsame. unfold markSignerSigned, updateStatus.
  cbn [signers set_signers set_status].
  split.
  - apply (find_updateFirst _ _ (signSigner first t1) _ s Hfind). exact Hid.
  - apply (find_updateFirst _ _ (signSigner second t2) _ s Hfind). exact Hid.
Qed.

(** [signAll bundle events]: one [markSignerSigned] per event, in order; an
    event is the signer id, the signature data and the time. *)
Definition signAll (bundle : Bundle) (events : list (string * SignatureData * string))
  : Bundle :=
  fold_left (fun b e => markSignerSigned b (fst (fst e)) (snd (fst e)) (snd e)) events bundle.

Lemma signAll_invariant (events : list (string * SignatureData * string)) :
  forall (bundle : Bundle) (done : list string),
    NoDup (map id (signers bundle)) ->
    (forall s, In s (signers bundle) -> In (id s) done -> signed s = true) ->
    map id (signers (signAll bundle events)) = map id (signers bundle) /\
    forall s, In s (signers (signAll bundle events)) ->
              In (id s) (done ++ map (fun e => fst (fst e)) events) -> signed s = true.
Proof.
  induction events as [|[[sid sd] now] events IH]; intros bundle done Hnd Hdone.
  - simpl. rewrite app_nil_r. auto.
  - cbn [signAll fold_left fst snd].
    fold (signAll (markSignerSigned bundle sid sd now) events).
    destruct (IH (markSignerSigned bundle sid sd now) (done ++ [sid])) as [Hids Hsigned].
    + rewrite markSignerSigned_signers, markList_ids. exact Hnd.
    + intros s Hin Hd. rewrite markSignerSigned_signers in Hin.
      apply in_app_or in Hd. destruct Hd as [Hd | [Heq | []]].
      * destruct (markList_elements _ _ _ _ _ Hin) as [Hold | (s0 & _ & _ & ->)];
          [now apply Hdone | reflexivity].
      * apply (markList_marks sid sd now (signers bundle) Hnd s Hin). now symmetry.
    + split.
      * rewrite Hids, markSignerSigned_signers. apply markList_ids.
      * intros s Hin Hd. apply Hsigned; [exact Hin|].
        cbn [map fst]. rewrite <- app_assoc. exact Hd.
Qed.

Lemma signAll_status (events : list (string * SignatureData * string)) (bundle : Bundle) :
  events <> [] ->
  status (signAll bundle events) = computeStatus (signers (signAll bundle events)).
Proof.
  revert bundle. induction events as [|e events IH]; intros bundle Hne; [congruence|].
  destruct events as [|e' events]; [reflexivity|].
  cbn [signAll fold_left]. apply (IH (markSignerSigned bundle _ _ _)). discriminate.
Qed.

Lemma pending_none (l : list Signer) :
  Forall (fun s => signed s = true) l -> filter (fun s => negb (signed s)) l = [].
Proof.
  induction 1 as [|s l Hs _ IH]; simpl; [reflexivity|]. now rewrite Hs.
Qed.

(** X15.  When the signers of a bundle have distinct ids, calling
    [markSignerSigned] once for each of them, in any order and possibly more
    than once, leaves every signer signed and the status [completed]. *)
Theorem signAll_completes (bundle : Bundle)
  (events : list (string * SignatureData * string)) :
  signers bundle <> [] ->
  NoDup (map id (signers bundle)) ->
  (forall s, In s (signers bundle) -> In (id s) (map (fun e => fst (fst e)) events)) ->
  status (signAll bundle events) = completed /\
  Forall (fun s => signed s = true) (signers (signAll bundle events)) /\
  getPendingSigners (signAll bundle events) = [].
Proof.
  intros Hne Hnd Hcover.
  destruct (signAll_invariant events bundle [] Hnd) as [Hids Hsigned];
    [intros s _ []|].
  assert (Hall : Forall (fun s => signed s = true) (signers (signAll bundle events))).
  { apply Forall_forall. intros s Hin. apply Hsigned; [exact Hin|].
    cbn [app]. apply (in_map id) in Hin. rewrite Hids in Hin.
    apply in_map_iff in Hin. destruct Hin as (s0 & <- & Hin0). now apply Hcover. }
  assert (Hev : events <> []).
  { intros ->. destruct (signers bundle) as [|s l]; [congruence|].
    exact (Hcover s (or_introl eq_refl)). }
  split; [|split; [exact Hall|]].
  - rewrite (signAll_status events bundle Hev). unfold computeStatus.
    apply forallb_signed in Hall. rewrite Hall.
    destruct (signers (signAll bundle events)) as [|s l] eqn:E; [|reflexivity].
    destruct (signers bundle); [congruence | discriminate Hids].
  - unfold getPendingSigners. now apply pending_none.
Qed.

(** X16.  After [updateStatus], the status is [completed] exactly when the
    bundle has signers and [getPendingSigners] returns none. *)
Theorem getPendingSigners_completed (bundle : Bundle) :
  status (updateStatus bundle) = completed
  <-> signers bundle <> [] /\ getPendingSigners (updateStatus bundle) = [].
Proof.
  unfold updateStatus, getPendingSigners. cbn [status signers set_status].
  assert (Hpending : filter (fun s => negb (signed s)) (signers bundle) = []
                     <-> forallb signed (signers bundle) = true).
  { induction (signers bundle) as [|s l IH]; simpl; [tauto|].
    destruct (signed s); simpl; [exact IH|]. split; discriminate. }
  rewrite Hpending. unfold computeStatus.
  destruct (signers bundle) as [|s l]; [split; [discriminate | intros [H _]; congruence]|].
  cbn [length Nat.eqb].
  destruct (forallb signed (s :: l)).
  - split; [split; [discriminate | reflexivity] | reflexivity].
  - split; [|intros [_ H]; discriminate H].
    destruct (existsb signed (s :: l)); discriminate.
Qed.


(** ** Fields and completion *)

Lemma truthyValue_hasValue (f : Field) : truthyValue (f_value f) = true -> hasValue f = true.
Proof. unfold hasValue. destruct (f_value f); simpl; congruence. Qed.

(** X17.  If [getUnsignedFields] returns no field for any signer then
    [isComplete] holds; if [isComplete] holds then [isSignerComplete] holds
    for every signer that has a field; a signer without fields is never
    complete, and a bundle without fields always is. *)
Theorem isComplete_relations (bundle : Bundle) :
  ((forall signerId, getUnsignedFields bundle signerId = []) -> isComplete bundle = true) /\
  (isComplete bundle = true ->
   forall signerId, getFieldsForSigner bundle signerId <> [] ->
                    isSignerComplete bundle signerId = true) /\
  (forall signerId, getFieldsForSigner bundle signerId = [] ->
                    isSignerComplete bundle signerId = false) /\
  (fields bundle = [] -> isComplete bundle = true).
Proof.
  split; [|split; [|split]].
  - intro Hnone. unfold isComplete. apply forallb_forall. intros f Hf.
    apply filter_In in Hf. destruct Hf as [Hin _].
    apply truthyValue_hasValue.
    destruct (truthyValue (f_value f)) eqn:E; [reflexivity|]. exfalso.
    assert (Hun : In f (getUnsignedFields bundle (f_signerId f))).
    { unfold getUnsignedFields. apply filter_In. split; [exact Hin|].
      now rewrite String.eqb_refl, E. }
    rewrite Hnone in Hun. contradiction.
  - intros Hcomplete signerId Hsome. unfold isSignerComplete.
    destruct (getFieldsForSigner bundle signerId) as [|f l] eqn:E; [congruence|].
    cbn [length Nat.ltb Nat.leb andb]. rewrite <- E.
    apply forallb_forall. intros g Hg.
    unfold isComplete in Hcomplete. rewrite forallb_forall in Hcomplete.
    apply Hcomplete. apply filter_In in Hg. destruct Hg as [Hg Hreq].
    unfold getFieldsForSigner in Hg. apply filter_In in Hg.
    apply filter_In. split; [apply Hg | exact Hreq].
  - intros signerId Hnone. unfold isSignerComplete. now rewrite Hnone.
  - intro Hnone. unfold isComplete. now rewrite Hnone.
Qed.

Lemma getDefaultWidth_nonzero (type : string) : getDefaultWidth type <> 0%Z.
Proof.
  unfold getDefaultWidth.
  repeat match goal with |- context [String.eqb ?a ?b] => destruct (String.eqb a b) end;
    discriminate.
Qed.

Lemma getDefaultHeight_nonzero (type : string) : getDefaultHeight type <> 0%Z.
Proof.
  unfold getDefaultHeight.
  repeat match goal with |- context [String.eqb ?a ?b] => destruct (String.eqb a b) end;
    discriminate.
Qed.

Lemma orDefault_nonzero (v : Nullable Z) (d : Z) : d <> 0%Z -> orDefault v d <> 0%Z.
Proof.
  intro Hd. unfold orDefault. destruct v as [| | z]; try exact Hd.
  destruct (Z.eqb z 0) eqn:E; [exact Hd | now apply Z.eqb_neq].
Qed.

(** X18.  [addField] appends one field whose value is [null] and whose
    width and height are never zero.  The field is required unless
    [required] was given as [false]; adding a required field makes
    [isComplete] false, adding an optional one leaves it as it was. *)
Theorem addField_effects (bundle : Bundle) (fieldData : FieldData) (stamp suffix : string) :
  fields (fst (addField bundle fieldData stamp suffix))
  = fields bundle ++ [snd (addField bundle fieldData stamp suffix)] /\
  signers (fst (addField bundle fieldData stamp suffix)) = signers bundle /\
  f_value (snd (addField bundle fieldData stamp suffix)) = Null /\
  f_width (snd (addField bundle fieldData stamp suffix)) <> 0%Z /\
  f_height (snd (addField bundle fieldData stamp suffix)) <> 0%Z /\
  (fd_required fieldData <> Val false ->
   f_required (snd (addField bundle fieldData stamp suffix)) = true /\
   isComplete (fst (addField bundle fieldData stamp suffix)) = false) /\
  (fd_required fieldData = Val false ->
   isComplete (fst (addField bundle fieldData stamp suffix)) = isComplete bundle).
Proof.
  split; [reflexivity|]. split; [reflexivity|]. split; [reflexivity|].
  split; [apply orDefault_nonzero, getDefaultWidth_nonzero|].
  split; [apply orDefault_nonzero, getDefaultHeight_nonzero|].
  unfold isComplete, addField. cbn [fst snd fields set_fields f_required].
  rewrite filter_app, forallb_app. cbn [filter f_required].
  split.
  - intro Hreq.
    assert (E : match fd_required fieldData with Val false => false | _ => true end = true)
      by (destruct (fd_required fieldData) as [| | []]; congruence).
    rewrite E. split; [reflexivity|]. cbn. apply andb_false_r.
  - intros ->. cbn. apply andb_true_r.
Qed.

(** ** File names *)

Lemma isPdfSuffix_length (s : string) : isPdfSuffix s = true -> String.length s = 4.
Proof.
  destruct s as [|a [|b [|c [|d [|e s]]]]]; simpl; try discriminate. reflexivity.
Qed.

Lemma stripPdfSuffix_append (base suffix : string) :
  isPdfSuffix suffix = true -> stripPdfSuffix (base ++ suffix) = base.
Proof.
  intro Hs. induction base as [|c base IH].
  - destruct suffix as [|a suffix]; [discriminate|]. cbn [append stripPdfSuffix].
    now rewrite Hs.
  - cbn [append stripPdfSuffix].
    destruct (isPdfSuffix (String c (base ++ suffix))) eqn:E; [|now rewrite IH].
    apply isPdfSuffix_length in E. apply isPdfSuffix_length in Hs.
    cbn [String.length] in E. rewrite Crypto.string_length_append in E. lia.
Qed.

Lemma endsWith_append (base suffix : string) : endsWith (base ++ suffix) suffix = true.
Proof.
  induction base as [|c base IH].
  - destruct suffix; cbn [append endsWith]; now rewrite String.eqb_refl.
  - cbn [append endsWith]. rewrite IH. apply orb_true_r.
Qed.

Lemma eqb_length (s t : string) : String.eqb s t = true -> String.length s = String.length t.
Proof. intro H. apply String.eqb_eq in H. now subst. Qed.

Lemma endsWith_extension_not_pdf (base : string) :
  endsWith (base ++ EXTENSION) ".pdf" = false.
Proof.
  induction base as [|c base IH]; [reflexivity|].
  cbn [append endsWith]. rewrite IH, orb_false_r.
  destruct (String.eqb (String c (base ++ EXTENSION)) ".pdf") eqn:E; [|reflexivity].
  apply eqb_length in E. cbn [String.length] in E.
  rewrite Crypto.string_length_append in E. simpl in E. lia.
Qed.

(** X19.  The default file name of a bundle is the document name with one
    trailing [.pdf] (in any letter case) replaced by [.ots-sign]; a name
    without that ending gets the extension appended.  [detectFileType]
    classes a file of that name as a bundle unless its media type is
    [application/pdf]. *)
Theorem getDefaultFilename_detected (bundle : Bundle) :
  endsWith (getDefaultFilename bundle) EXTENSION = true /\
  (forall fileType,
      fileType <> "application/pdf"%string ->
      detectFileType (getDefaultFilename bundle) fileType = "bundle"%string) /\
  (forall base suffix,
      isPdfSuffix suffix = true ->
      doc_name (document bundle) = (base ++ suffix)%string ->
      getDefaultFilename bundle = (base ++ ".ots-sign")%string).
Proof.
  unfold getDefaultFilename. split; [apply endsWith_append|]. split.
  - intros fileType Hne. unfold detectFileType.
    rewrite endsWith_extension_not_pdf, endsWith_append.
    apply String.eqb_neq in Hne. now rewrite Hne.
  - intros base suffix Hs ->. now rewrite stripPdfSuffix_append.
Qed.


(** ** The document *)

(** [evolves b b']: [b'] is obtained from [b] by bundle operations. *)
Inductive evolves : Bundle -> Bundle -> Prop :=
| evolves_refl b : evolves b b
| evolves_addSigner b b' name email stamp suffix :
    evolves b b' -> evolves b (fst (addSigner b' name email stamp suffix))
| evolves_removeSigner b b' signerId :
    evolves b b' -> evolves b (removeSigner b' signerId)
| evolves_markSignerSigned b b' signerId signatureData now :
    evolves b b' -> evolves b (markSignerSigned b' signerId signatureData now)
| evolves_updateStatus b b' :
    evolves b b' -> evolves b (updateStatus b')
| evolves_addField b b' fieldData stamp suffix :
    evolves b b' -> evolves b (fst (addField b' fieldData stamp suffix))
| evolves_removeField b b' fieldId :
    evolves b b' -> evolves b (removeField b' fieldId)
| evolves_updateField b b' fieldId updates :
    evolves b b' -> evolves b (updateField b' fieldId updates)
| evolves_setCompletedPdf b b' base64 now :
    evolves b b' -> evolves b (setCompletedPdf b' base64 now).

Lemma evolves_document (b b' : Bundle) : evolves b b' -> document b' = document b.
Proof. induction 1; auto. Qed.

(** X20.  No bundle operation touches the document, the version or the
    creation time: after any sequence of [addSigner], [removeSigner],
    [markSignerSigned], [updateStatus], [addField], [removeField],
    [updateField] and [setCompletedPdf] they are what they were. *)
Theorem document_unchanged (b b' : Bundle) :
  evolves b b' ->
  document b' = document b /\ version b' = version b /\ created b' = created b.
Proof.
  induction 1; auto.
Qed.

Section Base64.

(** [btoa], and [atob] with [None] for a thrown [InvalidCharacterError]. *)
Variable btoa : string -> string.
Variable atob : string -> option string.

(** The loop [binary += String.fromCharCode(bytes[i])]. *)
Fixpoint binaryString (buffer : bytes) : string :=
  match buffer with
  | [] => EmptyString
  | b :: rest => String (ascii_of_byte b) (binaryString rest)
  end.

Definition arrayBufferToBase64 (buffer : bytes) : string := btoa (binaryString buffer).

(** The loop [bytes[i] = binary.charCodeAt(i)]. *)
Fixpoint charCodes (binary : string) : bytes :=
  match binary with
  | EmptyString => []
  | String c rest => byte_of_ascii c :: charCodes rest
  end.

(** [None] when [atob] throws. *)
Definition base64ToArrayBuffer (base64 : string) : option bytes :=
  match atob base64 with
  | Some binary => Some (charCodes binary)
  | None => None
  end.

Definition getPdfBytes (bundle : Bundle) : option bytes :=
  base64ToArrayBuffer (doc_data (document bundle)).

Lemma charCodes_binaryString (buffer : bytes) : charCodes (binaryString buffer) = buffer.
Proof.
  induction buffer as [|b rest IH]; simpl; [reflexivity|].
  now rewrite byte_of_ascii_of_byte, IH.
Qed.

(** X21.  When [atob] decodes what [btoa] encodes, [base64ToArrayBuffer]
    undoes [arrayBufferToBase64], and [getPdfBytes] returns the bytes the
    bundle was created from, whatever operations the bundle went through
    since. *)
Theorem getPdfBytes_recovers (buffer : bytes) (pdfName createdAt modifiedAt : string)
  (pdfSize : Z) (b : Bundle) :
  (forall s, atob (btoa s) = Some s) ->
  evolves (create pdfName pdfSize (arrayBufferToBase64 buffer) createdAt modifiedAt) b ->
  base64ToArrayBuffer (arrayBufferToBase64 buffer) = Some buffer /\
  getPdfBytes b = Some buffer.
Proof.
  intros Hcodec Hev.
  assert (Hround : base64ToArrayBuffer (arrayBufferToBase64 buffer) = Some buffer).
  { unfold base64ToArrayBuffer, arrayBufferToBase64.
    now rewrite Hcodec, charCodes_binaryString. }
  split; [exact Hround|].
  unfold getPdfBytes. rewrite (evolves_document _ _ Hev). exact Hround.
Qed.

End Base64.

(** ** Examples *)

Definition sampleField : FieldData :=
  {| fd_type := "signature"; fd_signerId := "s1714557600000k3x9q"; fd_page := 0;
     fd_x := 72; fd_y := 120; fd_width := Undefined; fd_height := Val 0%Z;
     fd_required := Undefined |}.

(** Two signers, Ann with one signature field. *)
Definition sampleWithField : Bundle :=
  fst (addField sampleTwoSigners sampleField "1714557600002" "a1b2c").

Lemma removeSigner_cascade_witness :
  exists s,
    In s (signers (removeSigner sampleWithField "s1714557600001p7w2m")) /\
    id s = f_signerId (snd (addField sampleTwoSigners sampleField "1714557600002" "a1b2c")).
Proof.
  apply (proj2 (proj2 (removeSigner_cascade sampleWithField "s1714557600001p7w2m"))).
  - intros f [<- | []]. eexists. split; [left; reflexivity | reflexivity].
  - left. reflexivity.
Defined.

Lemma updateField_removeField_frame_witness :
  fields sampleWithField <> [] /\
  updateField sampleWithField "f0"
    (mkFieldUpdates None None None None None None None None None (Some (Val "x")) None)
  = sampleWithField /\
  removeField sampleWithField "f0" = sampleWithField.
Proof.
  split; [discriminate|].
  apply (proj1 (updateField_removeField_frame sampleWithField "f0"
                  (mkFieldUpdates None None None None None None None None None
                     (Some (Val "x")) None))).
  intros f [<- | []]. discriminate.
Defined.

Lemma markSignerSigned_effects_witness :
  status (markSignerSigned sampleTwoSigners "s1714557600001p7w2m" sampleSignature
            "2024-05-02T09:00:00.000Z") <> draft.
Proof.
  apply (proj1 (proj2 (proj2 (proj2 (proj2
           (markSignerSigned_effects sampleTwoSigners "s1714557600001p7w2m"
              sampleSignature "2024-05-02T09:00:00.000Z")))))).
  eexists. split; [right; left; reflexivity | reflexivity].
Defined.

Definition sampleEvents : list (string * SignatureData * string) :=
  [ ("s1714557600001p7w2m", sampleSignature, "2024-05-02T09:00:00.000Z");
    ("s1714557600000k3x9q", sampleSignature, "2024-05-03T09:00:00.000Z") ].

Lemma signAll_completes_witness :
  status (signAll sampleTwoSigners sampleEvents) = completed /\
  Forall (fun s => signed s = true) (signers (signAll sampleTwoSigners sampleEvents)) /\
  getPendingSigners (signAll sampleTwoSigners sampleEvents) = [].
Proof.
  apply (signAll_completes sampleTwoSigners sampleEvents).
  - discriminate.
  - repeat constructor; simpl; intuition discriminate.
  - intros s [<- | [<- | []]]; simpl; auto.
Defined.

(** A later signature of the same signer. *)
Definition laterSignature : SignatureData :=
  {| sd_publicKey := Val "ed25519:ff";
     sd_signatureImage := Null;
     sd_cryptoSignature := Val [x03] |}.

(** Bob, as [addSigner] stored him. *)
Definition sampleBob : Signer :=
  snd (addSigner
         (fst (addSigner sampleCreated "Ann" " Ann@Example.org" "1714557600000" "k3x9q"))
         "Bob" "bob@example.org" "1714557600001" "p7w2m").

Lemma markSignerSigned_overwrites_witness :
  find (fun s => String.eqb (id s) "s1714557600001p7w2m")
       (signers (markSignerSigned sampleTwoSigners "s1714557600001p7w2m"
                   sampleSignature "2024-05-02T09:00:00.000Z"))
  = Some {| id := "s1714557600001p7w2m"; name := "Bob"; email := "bob@example.org";
            color := color sampleBob;
            signed := true;
            signedAt := Val "2024-05-02T09:00:00.000Z";
            publicKey := Val "ed25519:00";
            signatureImage := Val "data:image/png;base64,AA==";
            cryptoSignature := Val [x01; x02] |} /\
  find (fun s => String.eqb (id s) "s1714557600001p7w2m")
       (signers (markSignerSigned
                   (markSignerSigned sampleTwoSigners "s1714557600001p7w2m"
                      sampleSignature "2024-05-02T09:00:00.000Z")
                   "s1714557600001p7w2m" laterSignature "2024-05-04T09:00:00.000Z"))
  = Some {| id := "s1714557600001p7w2m"; name := "Bob"; email := "bob@example.org";
            color := color sampleBob;
            signed := true;
            signedAt := Val "2024-05-04T09:00:00.000Z";
            publicKey := Val "ed25519:ff";
            signatureImage := Null;
            cryptoSignature := Val [x03] |}.
Proof.
  apply (proj2 (markSignerSigned_overwrites sampleTwoSigners "s1714557600001p7w2m"
                  sampleSignature laterSignature
                  "2024-05-02T09:00:00.000Z" "2024-05-04T09:00:00.000Z") sampleBob).
  reflexivity.
Defined.

(** Ann has filled in her field. *)
Definition sampleFilled : Bundle :=
  updateField sampleWithField "f1714557600002a1b2c"
    (mkFieldUpdates None None None None None None None None None
       (Some (Val "data:image/png;base64,AA==")) None).

Lemma isComplete_relations_witness :
  fields sampleFilled <> [] /\
  isComplete sampleFilled = true /\
  isSignerComplete sampleFilled "s1714557600000k3x9q" = true.
Proof.
  assert (Hcomplete : isComplete sampleFilled = true).
  { apply (proj1 (isComplete_relations sampleFilled)).
    intro signerId. unfold getUnsignedFields.
    let l := eval vm_compute in (fields sampleFilled) in
    change (fields sampleFilled) with l.
    cbn [filter f_signerId f_value].
    generalize (String.eqb "s1714557600000k3x9q" signerId). intros []; reflexivity. }
  split; [discriminate|]. split; [exact Hcomplete|].
  apply (proj1 (proj2 (isComplete_relations sampleFilled)) Hcomplete).
  discriminate.
Defined.

Lemma addField_effects_witness :
  f_required (snd (addField sampleTwoSigners sampleField "1714557600002" "a1b2c")) = true /\
  isComplete (fst (addField sampleTwoSigners sampleField "1714557600002" "a1b2c")) = false.
Proof.
  apply (proj1 (proj2 (proj2 (proj2 (proj2 (proj2
           (addField_effects sampleTwoSigners sampleField "1714557600002" "a1b2c"))))))).
  discriminate.
Defined.

Lemma getDefaultFilename_detected_witness :
  detectFileType (getDefaultFilename sampleCreated) "application/json" = "bundle"%string.
Proof.
  apply (proj1 (proj2 (getDefaultFilename_detected sampleCreated))). discriminate.
Defined.

Lemma document_unchanged_witness :
  document sampleAfterRemoval = document sampleCreated /\
  version sampleAfterRemoval = version sampleCreated /\
  created sampleAfterRemoval = created sampleCreated.
Proof.
  apply (document_unchanged sampleCreated sampleAfterRemoval).
  unfold sampleAfterRemoval, sampleSigned, sampleTwoSigners.
  apply evolves_removeSigner, evolves_markSignerSigned.
  do 2 apply evolves_addSigner. apply evolves_refl.
Defined.

Lemma getPdfBytes_recovers_witness :
  base64ToArrayBuffer Some
    (arrayBufferToBase64 (fun s => s) [x25; x50; x44; x46]) = Some [x25; x50; x44; x46] /\
  getPdfBytes Some
    (markSignerSigned
       (create "contract.pdf" 4 (arrayBufferToBase64 (fun s => s) [x25; x50; x44; x46])
          "2024-05-01T10:00:00.000Z" "2024-05-01T10:00:00.001Z")
       "s0" sampleSignature "2024-05-01T10:05:00.000Z")
  = Some [x25; x50; x44; x46].
Proof.
  apply (getPdfBytes_recovers (fun s => s) Some [x25; x50; x44; x46] "contract.pdf"
           "2024-05-01T10:00:00.000Z" "2024-05-01T10:00:00.001Z" 4).
  - reflexivity.
  - apply evolves_markSignerSigned, evolves_refl.
Defined.


(** X23.  The email [addSigner] stores stands for the email as it was
    typed: the signing message and the derived key pair are the same for
    both. *)
Theorem stored_email_equivalent (bundle : Bundle) (name email stamp suffix : string)
  (pbkdf2_sha256 : bytes -> bytes -> N -> N -> bytes)
  (nacl_sign_keyPair_fromSeed : bytes -> Crypto.KeyPair) :
  (forall documentHash timestamp,
      Crypto.createSigningMessage documentHash
        (Bundle.email (snd (addSigner bundle name email stamp suffix))) timestamp
      = Crypto.createSigningMessage documentHash email timestamp) /\
  (forall password,
      Crypto.deriveKeypair pbkdf2_sha256 nacl_sign_keyPair_fromSeed
        (Bundle.email (snd (addSigner bundle name email stamp suffix))) password
      = Crypto.deriveKeypair pbkdf2_sha256 nacl_sign_keyPair_fromSeed email password).
Proof.
  cbn [addSigner snd Bundle.email]. split.
  - intros documentHash timestamp.
    rewrite !Crypto.createSigningMessage_text.
    change (trim (toLowerCase email)) with (Crypto.normalizeEmail email).
    now rewrite Crypto.normalizeEmail_idempotent.
  - intro password. unfold Crypto.deriveKeypair.
    change (trim (toLowerCase (trim (toLowerCase email))))
      with (Crypto.normalizeEmail (Crypto.normalizeEmail email)).
    now rewrite Crypto.normalizeEmail_idempotent.
Qed.

End Bundle.
